(** * Local gradient aggregation (eager helper) of horovod

    A shallow embedding of
    [horovod/common/gradient_aggregation_eager.py]
    (class [LocalGradientAggregationHelperEager]) and the properties of
    its accumulate / synchronise / apply-gate protocol.

    Modelling conventions.
    - The body of every method is read as ordinary Python, executed
      statement by statement on every call; the staging done by the
      decorator [@tf.function] is not part of the model.  The object
      [self] is a record that is threaded through the calls; an exception
      aborts the call and leaves the object as mutated so far.
    - [tf.Tensor] values are kept abstract: a type [T] with the four
      operations the helper uses ([tf.zeros_like], [assign_add] / [+],
      [-1 * x], [x / d]).  Properties that depend on arithmetic facts take
      them from the class [TensorLaws]; the rationals [Qc] are an instance.
      These are facts of exact arithmetic: floating-point tensors break
      them at infinities and NaN, and every statement that assumes them
      carries the class as a hypothesis.
    - [self.shadow_var] is a Python [dict] keyed by the position of the
      gradient: a [gmap nat T].
    - [self.counter] is a 32-bit integer [tf.Variable] that is only
      incremented, compared with [aggregation_frequency] and reset.  It is
      a [Z], without the wrap-around: model and program agree as long as
      the counter stays below [2^31].  In runs whose calls return it stays
      between [0] and the frequency; a statement about runs in which it
      can grow bounds their length.
    - The collective [allreduce_func] is a function from lists to lists. *)

From Stdlib Require Import ZArith QArith Qcanon Lia.
From stdpp Require Import base option list gmap strings.

Set Default Proof Using "Type".

(** ** Values *)

(** What a slot of a gradient list can hold: a dense [tf.Tensor], a sparse
    [tf.IndexedSlices] or Python's [None]. *)
Inductive grad (T : Type) : Type :=
| Tensor (t : T)
| IndexedSlices (values : T) (indices : list Z)
| NoneGrad.
Arguments Tensor {T} t.
Arguments IndexedSlices {T} values indices.
Arguments NoneGrad {T}.

(** The tensor operations used by the helper. *)
Class TensorOps (T : Type) : Type := {
  zeros_like : T → T;            (* tf.zeros_like(grad) *)
  tensor_add : T → T → T;        (* v.assign_add(x), i.e. v + x *)
  tensor_mul_int : Z → T → T;    (* k * x, used as -1 * v *)
  tensor_div_int : T → Z → T     (* x / gradient_divisor *)
}.

(** Exact-arithmetic facts about the tensor operations. *)
Class TensorLaws (T : Type) `{TensorOps T} : Prop := {
  add_zeros_l : ∀ x y : T, tensor_add (zeros_like x) y = y;
  add_neg_self : ∀ x : T, tensor_add x (tensor_mul_int (-1) x) = zeros_like x;
  zeros_like_zeros : ∀ x : T, zeros_like (zeros_like x) = zeros_like x;
  div_one : ∀ x : T, tensor_div_int x 1 = x
}.

(** ** Exceptions *)

(** The places where the module raises [AssertionError]. *)
Inductive assert_site : Type :=
| FrequencyPositive   (* __init__: assert self.aggregation_frequency > 0 *)
| SparseGradient      (* compute_gradients: raise AssertionError("IndexedSlices ...") *)
| InvariantCheck      (* assert len(shadow_var) + num_none_grad_updates == len(grads) *)
| ReducedLength       (* assert len(resulting_grads) == len(self.shadow_var) *)
| OutputLength.       (* assert len(resulting_grads) == len(shadow_var) + num_none_grad_updates *)

Inductive exn : Type :=
| AssertionError (site : assert_site)
| IndexError
| KeyError.

(** The names the specification gives to the failures. *)
Definition UnsupportedSparseGradient : exn := AssertionError SparseGradient.
Definition AccumulationInvariantViolated : exn := AssertionError InvariantCheck.

Inductive outcome (A : Type) : Type :=
| Return (a : A)
| Raise (e : exn).
Arguments Return {A} a.
Arguments Raise {A} e.

Section Helper.

Context {T : Type} `{TensorOps T}.

(** ** The helper object *)

Record helper : Type := Helper {
  _allreduce_grads : list (grad T) → list (grad T);
  aggregation_frequency : Z;
  average_aggregated_gradients : bool;
  shadow_var : gmap nat T;
  counter : Z;
  _sparse_as_dense : bool;
  num_none_grad_updates : nat
}.

Definition set_shadow_var (f : gmap nat T → gmap nat T) (h : helper) : helper :=
  Helper (_allreduce_grads h) (aggregation_frequency h)
         (average_aggregated_gradients h) (f (shadow_var h)) (counter h)
         (_sparse_as_dense h) (num_none_grad_updates h).

Definition set_counter (f : Z → Z) (h : helper) : helper :=
  Helper (_allreduce_grads h) (aggregation_frequency h)
         (average_aggregated_gradients h) (shadow_var h) (f (counter h))
         (_sparse_as_dense h) (num_none_grad_updates h).

Definition set_num_none_grad_updates (f : nat → nat) (h : helper) : helper :=
  Helper (_allreduce_grads h) (aggregation_frequency h)
         (average_aggregated_gradients h) (shadow_var h) (counter h)
         (_sparse_as_dense h) (f (num_none_grad_updates h)).

Definition set_sparse_as_dense (b : bool) (h : helper) : helper :=
  Helper (_allreduce_grads h) (aggregation_frequency h)
         (average_aggregated_gradients h) (shadow_var h) (counter h)
         b (num_none_grad_updates h).

(** [__init__] *)
Definition init (aggregation_frequency : Z)
    (allreduce_func : list (grad T) → list (grad T))
    (sparse_as_dense average_aggregated_gradients : bool) : outcome helper :=
  if (0 <? aggregation_frequency)%Z
  then Return (Helper allreduce_func aggregation_frequency
                      average_aggregated_gradients ∅ 0 sparse_as_dense 0)
  else Raise (AssertionError FrequencyPositive).

(** ** Methods as state transformers that may raise *)

Definition M (A : Type) : Type := helper → helper * outcome A.

Definition ret {A} (a : A) : M A := λ h, (h, Return a).
Definition raise {A} (e : exn) : M A := λ h, (h, Raise e).
Definition bind {A B} (m : M A) (k : A → M B) : M B :=
  λ h, match m h with
       | (h', Return a) => k a h'
       | (h', Raise e) => (h', Raise e)
       end.
Definition get : M helper := λ h, (h, Return h).
Definition modify (f : helper → helper) : M unit := λ h, (f h, Return tt).
Definition py_assert (site : assert_site) (b : bool) : M unit :=
  if b then ret tt else raise (AssertionError site).

#[global] Instance M_ret : MRet M := @ret.
#[global] Instance M_bind : MBind M := λ A B k m, bind m k.

(** The body of [for idx, grad in enumerate(grads)]; the value is the
    list [resulting_grads] after the iteration. *)
Definition loop_body (idx : nat) (g : grad T) (resulting_grads : list (grad T))
    : M (list (grad T)) :=
  match g with
  | IndexedSlices _ _ => raise UnsupportedSparseGradient
  | _ =>
    h ← get;
    continue ←
      match shadow_var h !! idx with
      | None =>                                   (* idx not in shadow_var.keys() *)
        match g with
        | Tensor t =>
          modify (set_shadow_var (<[idx := zeros_like t]>)) ;; ret false
        | _ =>
          modify (set_num_none_grad_updates S) ;; ret true
        end
      | Some _ => ret false
      end;
    if continue : bool then ret resulting_grads
    else
      match g with
      | Tensor t =>
        h ← get;
        match shadow_var h !! idx with
        | Some v =>
          let v' := tensor_add v t in             (* assign_add(grad) *)
          modify (set_shadow_var (<[idx := v']>)) ;;
          ret (resulting_grads ++ [Tensor v'])    (* append(read_value()) *)
        | None => raise KeyError
        end
      | _ => ret resulting_grads
      end
  end.

Fixpoint for_enumerate (idx : nat) (grads : list (grad T))
    (resulting_grads : list (grad T)) : M (list (grad T)) :=
  match grads with
  | [] => ret resulting_grads
  | g :: rest =>
    r ← loop_body idx g resulting_grads; for_enumerate (S idx) rest r
  end.

(** [_allreduce_helper] *)
Definition scale_grad (gradient_divisor : Z) (g : grad T) : grad T :=
  match g with
  | Tensor t => Tensor (tensor_div_int t gradient_divisor)
  | _ => g                      (* None or IndexedSlices: appended as it is *)
  end.

Definition _allreduce_helper (grads : list (grad T)) : M (list (grad T)) :=
  h ← get;
  let allreduced_grads := _allreduce_grads h grads in
  if (1 <? aggregation_frequency h)%Z then
    let gradient_divisor :=
      if average_aggregated_gradients h then aggregation_frequency h else 1%Z in
    ret (scale_grad gradient_divisor <$> allreduced_grads)
  else ret allreduced_grads.

(** [_clear_vars] *)
Definition _clear_vars : M unit :=
  modify (set_counter (λ _, 0%Z)) ;;
  modify (set_shadow_var (fmap (λ v, tensor_add v (tensor_mul_int (-1) v)))).

(** The comprehension
    [[resulting_grads[idx] if idx in self.shadow_var else None for idx in range(n)]]. *)
Fixpoint rebuild (shadow : gmap nat T) (resulting_grads : list (grad T))
    (idxs : list nat) : outcome (list (grad T)) :=
  match idxs with
  | [] => Return []
  | idx :: rest =>
    match shadow !! idx with
    | Some _ =>
      match resulting_grads !! idx with
      | Some g =>
        match rebuild shadow resulting_grads rest with
        | Return gs => Return (g :: gs)
        | Raise e => Raise e
        end
      | None => Raise IndexError
      end
    | None =>
      match rebuild shadow resulting_grads rest with
      | Return gs => Return (NoneGrad :: gs)
      | Raise e => Raise e
      end
    end
  end.

Definition lift {A} (o : outcome A) : M A := λ h, (h, o).

(** [compute_gradients] *)
Definition compute_gradients (grads : list (grad T)) : M (list (grad T)) :=
  resulting_grads ← for_enumerate 0 grads [];
  h ← get;
  py_assert InvariantCheck
    (size (shadow_var h) + num_none_grad_updates h =? length grads) ;;
  modify (set_counter (λ c, c + 1)%Z) ;;
  h ← get;
  if (counter h =? aggregation_frequency h)%Z then (
    resulting_grads ← _allreduce_helper resulting_grads;
    py_assert ReducedLength
      (length resulting_grads =? size (shadow_var h)) ;;
    resulting_grads ←
      lift (rebuild (shadow_var h) resulting_grads
              (seq 0 (length resulting_grads + num_none_grad_updates h)));
    py_assert OutputLength
      (length resulting_grads
       =? size (shadow_var h) + num_none_grad_updates h) ;;
    _clear_vars ;;
    ret resulting_grads )
  else ret resulting_grads.

(** [grad is not None] *)
Definition is_not_none (g : grad T) : bool :=
  match g with NoneGrad => false | _ => true end.

(** The test of line 67 as it will come out for a call entered in state
    [h]: the counter, incremented, equals the frequency. *)
Definition sync_step (h : helper) : bool :=
  (counter h + 1 =? aggregation_frequency h)%Z.

(** The predicate of the [tf.cond] in [apply_gradients]:
    [tf.equal(self.counter, 0)]. *)
Definition counter_is_zero (h : helper) : bool := (counter h =? 0)%Z.

(** A run: consecutive calls of [compute_gradients] on one helper.  Every
    call is reported with its outcome and with the helper as it is after
    the call. *)
Fixpoint run (calls : list (list (grad T))) (h : helper)
    : list (helper * outcome (list (grad T))) :=
  match calls with
  | [] => []
  | grads :: rest =>
    let r := compute_gradients grads h in r :: run rest (fst r)
  end.

(** The helper after a run. *)
Definition state_after (calls : list (list (grad T))) (h : helper) : helper :=
  fold_left (λ h grads, (compute_gradients grads h).1) calls h.

(** The value of [_allreduce_helper]: the reduced gradients, scaled. *)
Definition reduced (h : helper) (grads : list (grad T)) : list (grad T) :=
  if (1 <? aggregation_frequency h)%Z
  then scale_grad (if average_aggregated_gradients h
                   then aggregation_frequency h else 1%Z)
         <$> _allreduce_grads h grads
  else _allreduce_grads h grads.

(** ** Vocabulary of the properties *)

(** Slot by slot, the buffers [bufs] after the gradient lists [gss] have
    been added to them in call order. *)
Definition accumulate (bufs : list T) (gss : list (list T)) : list T :=
  fold_left (zip_with tensor_add) gss bufs.

(** Slot by slot, [g_1 + g_2 + ... + g_f], summed in call order. *)
Definition slot_sums (gss : list (list T)) : list T :=
  match gss with
  | [] => []
  | gs :: rest => accumulate gs rest
  end.

(** A call in which every position carries a dense tensor. *)
Definition dense (gs : list T) : list (grad T) := Tensor <$> gs.

(** Which positions of a call carry a gradient. *)
Definition presence (grads : list (grad T)) : list bool := is_not_none <$> grads.

Definition same_presence (calls : list (list (grad T))) : Prop :=
  ∀ c1 c2, c1 ∈ calls → c2 ∈ calls → presence c1 = presence c2.

Definition buffers_zero (h : helper) : Prop :=
  ∀ i v, shadow_var h !! i = Some v → v = zeros_like v.

(** The helper stands at the start of an aggregation cycle over [P]
    positions: freshly built, or just reset by a synchronization. *)
Definition cycle_start (P : nat) (h : helper) : Prop :=
  counter h = 0%Z ∧ num_none_grad_updates h = 0 ∧
  (shadow_var h = ∅ ∨
   ∃ bufs, length bufs = P ∧ shadow_var h = map_seq 0 (zeros_like <$> bufs)).

(** The cycle law: over the [f] calls of [calls], no synchronization is
    reported before the last call, the last call reports one, and after it
    every buffer is zero and the counter is [0]. *)
Definition cycle_law (h : helper) (calls : list (list (grad T))) : Prop :=
  let f := Z.to_nat (aggregation_frequency h) in
  let rs := run calls h in
  (∀ k, k < f - 1 →
     ∃ hk out, rs !! k = Some (hk, Return out) ∧ counter_is_zero hk = false) ∧
  (∃ hf out, rs !! (f - 1) = Some (hf, Return out) ∧
     counter_is_zero hf = true ∧ buffers_zero hf ∧ counter hf = 0%Z).

(** The averaging law in the words of the specification: whatever the
    reduce returns for a slot comes back divided by the frequency when
    averaging is on and the frequency exceeds one, and comes back as it is
    when averaging is off.  [divided_by] divides a dense tensor, and the
    values of a sparse one. *)
Definition divided_by (d : Z) (g : grad T) : grad T :=
  match g with
  | Tensor t => Tensor (tensor_div_int t d)
  | IndexedSlices values indices =>
    IndexedSlices (tensor_div_int values d) indices
  | NoneGrad => NoneGrad
  end.

Definition averaging_law (h : helper) (sums : list T) (out : list (grad T))
    : Prop :=
  ∀ k r, _allreduce_grads h (dense sums) !! k = Some r →
    (average_aggregated_gradients h = true →
     (1 < aggregation_frequency h)%Z →
     out !! k = Some (divided_by (aggregation_frequency h) r)) ∧
    (average_aggregated_gradients h = false → out !! k = Some r).

(** The reduce returns one value per value it is given. *)
Definition length_preserving (allreduce : list (grad T) → list (grad T)) : Prop :=
  ∀ grads, length (allreduce grads) = length grads.

End Helper.

Arguments helper T : clear implicits.
Arguments M T : clear implicits.
Arguments accumulate : simpl never.

(** ** The apply gate *)

Section ApplyGate.

Context {T : Type}.
(** [World]: the variables of the TensorFlow runtime that the closures read
    and write (the optimizer's among them); [R]: what applying gradients
    returns; [GV]: a list of gradient and variable pairs. *)
Context {World R GV : Type}.

(** Positional and keyword argument values of [apply_gradients]. *)
Inductive pyarg : Type :=
| GradsAndVars (gv : GV)
| PyStr (s : string)
| PyBool (b : bool).

(** What the module uses of the optimizer object. *)
Record optimizer : Type := Optimizer {
  (* [Some] when hasattr(optimizer, "_iterations") and it is not None *)
  _iterations : World → option Z;
  _iterations_assign_add : Z → World → World;
  _aggregate_gradients : pyarg → World → pyarg * World;
  (* super(optimizer.__class__, optimizer).apply_gradients *)
  super_apply_gradients : pyarg → gmap string pyarg → World → R * World
}.

(** The value of the [tf.cond]. *)
Inductive cond_value : Type :=
| Applied (r : R)
| AssignAddOp          (* optimizer._iterations.assign_add(1).op *)
| NoOp.                (* tf.no_op() *)

Inductive branch : Type := true_fn | false_fn.

(** [tf.cond(pred, true_fn, false_fn)]: the chosen branch is called on the
    current world; the last component lists the branches that were called. *)
Definition tf_cond {A} (pred : bool) (on_true on_false : World → A * World)
    (w : World) : A * World * list branch :=
  if pred then (on_true w, [true_fn]) else (on_false w, [false_fn]).

Definition increment_optimizer_iteration (opt : optimizer)
    (w : World) : cond_value * World :=
  match _iterations opt w with
  | Some _ => (AssignAddOp, _iterations_assign_add opt 1 w)
  | None => (NoOp, w)
  end.

Definition applied (c : World → R * World) (w : World) : cond_value * World :=
  (Applied (c w).1, (c w).2).

Definition aggregation_step (opt : optimizer) (updated_grad_and_vars : pyarg)
    (args : list pyarg) (kwargs : gmap string pyarg)
    : World → cond_value * World :=
  let kwargs :=
    match args !! 1 with                       (* if len(args) > 1 *)
    | Some name => <["name" := name]> kwargs
    | None => kwargs
    end in
  let kwargs := <["experimental_aggregate_gradients" := PyBool false]> kwargs in
  applied (super_apply_gradients opt updated_grad_and_vars kwargs).

Definition non_aggregation_step (opt : optimizer) : World → cond_value * World :=
  increment_optimizer_iteration opt.

(** [apply_gradients] *)
Definition apply_gradients (_PRE_TF_2_4_0 : bool) (self : helper T)
    (apply_grads_closure : World → R * World) (opt : optimizer)
    (args : list pyarg) (kwargs : gmap string pyarg) (w : World)
    : outcome (cond_value * World * list branch) :=
  if _PRE_TF_2_4_0 then
    Return (tf_cond (counter self =? 0)%Z
              (applied apply_grads_closure)
              (increment_optimizer_iteration opt) w)
  else
    match args !! 0 with
    | None => Raise IndexError                          (* args[0] *)
    | Some a0 =>
      let '(updated_grad_and_vars, w1) := _aggregate_gradients opt a0 w in
      Return (tf_cond (counter self =? 0)%Z
                (aggregation_step opt updated_grad_and_vars args kwargs)
                (non_aggregation_step opt) w1)
    end.

End ApplyGate.

Arguments pyarg GV : clear implicits.
Arguments optimizer World R GV : clear implicits.
Arguments cond_value R : clear implicits.

(** ** Rational tensors *)

Definition qc (z : Z) : Qc := Q2Qc (inject_Z z).

#[global] Instance Qc_tensor : TensorOps Qc := {
  zeros_like _ := qc 0;
  tensor_add := Qcplus;
  tensor_mul_int k x := Qcmult (qc k) x;
  tensor_div_int x d := Qcdiv x (qc d)
}.

(** A fresh helper on rational tensors, and a helper of a single worker
    whose collective reduce is the identity. *)
Definition fresh (f : Z) (allreduce_func : list (grad Qc) → list (grad Qc))
    (sparse_as_dense average : bool) : helper Qc :=
  Helper allreduce_func f average ∅ 0 sparse_as_dense 0.

Definition single_worker (f : Z) (average : bool) : helper Qc :=
  fresh f id false average.

(** A small optimizer: the world is its iteration count; applying
    gradients returns the count. *)
Definition counting_optimizer : optimizer Z Z unit :=
  Optimizer (λ w, Some w) (λ d w, (w + d)%Z) (λ a w, (a, w)) (λ _ _ w, (w, w)).

(** A reduce that hands every dense tensor back in sparse form. *)
Definition sparse_reduce (grads : list (grad Qc)) : list (grad Qc) :=
  (λ g, match g with Tensor t => IndexedSlices t [0%Z] | _ => g end) <$> grads.

(** ** Inputs and runs *)

Section Inputs.

Context {T : Type}.

(** No position of the input holds a [tf.IndexedSlices]. *)
Definition no_sparse (grads : list (grad T)) : Prop :=
  ∀ i values indices, grads !! i ≠ Some (IndexedSlices values indices).

(** Every call of a run returned. *)
Definition all_returned {S A} (rs : list (S * outcome A)) : Prop :=
  Forall (λ r, ∃ a, r.2 = Return a) rs.

End Inputs.

(** ** Sample helpers on rational tensors *)

(** One step before the boundary of a cycle of two, with two buffers. *)
Definition two_buffers : helper Qc :=
  Helper id 2 true (map_seq 0 [qc 1; qc 2]) 1 false 0.

(** After a first call on a dense tensor and an absent gradient. *)
Definition absent_counted : helper Qc :=
  Helper id 2 true (map_seq 0 [qc 1]) 1 false 1.

(** A helper whose reduce returns no value at all. *)
Definition dropping_worker : helper Qc :=
  fresh 1 (λ _, []) false true.

(** * Properties *)

Ltac unfold_M :=
  unfold mbind, M_bind, bind, mret, M_ret, ret, raise, get, modify, lift,
    py_assert in *.

Section HelperFacts.

Context {T : Type} `{TensorOps T}.
Implicit Types (h : helper T) (grads res : list (grad T)) (idx : nat).

(** ** One iteration of the loop *)

Lemma loop_body_Tensor idx t res h :
  loop_body idx (Tensor t) res h =
    let v' := tensor_add (default (zeros_like t) (shadow_var h !! idx)) t in
    (set_shadow_var (<[idx := v']>) h, Return (res ++ [Tensor v'])).
Proof.
  unfold loop_body. unfold_M.
  destruct (shadow_var h !! idx) as [v|] eqn:E; cbn.
  - by rewrite E.
  - rewrite lookup_insert_eq. cbn. unfold set_shadow_var. cbn.
    by rewrite insert_insert_eq.
Qed.

Lemma loop_body_NoneGrad idx res h :
  loop_body idx NoneGrad res h =
    (match shadow_var h !! idx with
     | Some _ => h
     | None => set_num_none_grad_updates S h
     end, Return res).
Proof.
  unfold loop_body. unfold_M. by destruct (shadow_var h !! idx).
Qed.

Lemma loop_body_IndexedSlices idx values indices res h :
  loop_body idx (IndexedSlices values indices) res h =
    (h, Raise UnsupportedSparseGradient).
Proof. done. Qed.

Lemma for_enumerate_cons idx g grads res h :
  for_enumerate idx (g :: grads) res h =
    match loop_body idx g res h with
    | (h', Return r) => for_enumerate (S idx) grads r h'
    | (h', Raise e) => (h', Raise e)
    end.
Proof. done. Qed.

(** The loop raises nothing but the sparse-gradient error. *)
Lemma for_enumerate_raises grads idx res h h' e :
  for_enumerate idx grads res h = (h', Raise e) →
  e = UnsupportedSparseGradient.
Proof.
  revert idx res h. induction grads as [|g grads IH]; intros idx res h.
  - discriminate.
  - rewrite for_enumerate_cons. destruct g.
    + rewrite loop_body_Tensor. cbn. apply IH.
    + rewrite loop_body_IndexedSlices. congruence.
    + rewrite loop_body_NoneGrad. apply IH.
Qed.

(** A sparse gradient anywhere in the input makes the loop raise. *)
Lemma for_enumerate_sparse grads i values indices idx res h :
  grads !! i = Some (IndexedSlices values indices) →
  (for_enumerate idx grads res h).2 = Raise UnsupportedSparseGradient.
Proof.
  revert i idx res h. induction grads as [|g grads IH]; intros i idx res h Hi.
  - by rewrite lookup_nil in Hi.
  - rewrite for_enumerate_cons. destruct i as [|i]; cbn in Hi; simplify_eq.
    + by rewrite loop_body_IndexedSlices.
    + destruct g.
      * rewrite loop_body_Tensor. cbn. by eapply IH.
      * by rewrite loop_body_IndexedSlices.
      * rewrite loop_body_NoneGrad. by eapply IH.
Qed.

(** The loop leaves the counter and the configuration alone. *)
Lemma for_enumerate_counter grads idx res h :
  counter (for_enumerate idx grads res h).1 = counter h.
Proof.
  revert idx res h. induction grads as [|g grads IH]; intros idx res h; [done|].
  rewrite for_enumerate_cons. destruct g.
  - rewrite loop_body_Tensor. cbn. by rewrite IH.
  - by rewrite loop_body_IndexedSlices.
  - rewrite loop_body_NoneGrad. rewrite IH. by destruct (shadow_var h !! idx).
Qed.

Lemma for_enumerate_frequency grads idx res h :
  aggregation_frequency (for_enumerate idx grads res h).1
  = aggregation_frequency h.
Proof.
  revert idx res h. induction grads as [|g grads IH]; intros idx res h; [done|].
  rewrite for_enumerate_cons. destruct g.
  - rewrite loop_body_Tensor. cbn. by rewrite IH.
  - by rewrite loop_body_IndexedSlices.
  - rewrite loop_body_NoneGrad. rewrite IH. by destruct (shadow_var h !! idx).
Qed.

Lemma compute_gradients_sparse grads i values indices h :
  grads !! i = Some (IndexedSlices values indices) →
  (compute_gradients grads h).2 = Raise UnsupportedSparseGradient
  ∧ counter (compute_gradients grads h).1 = counter h.
Proof.
  intros Hi. unfold compute_gradients. unfold_M.
  pose proof (for_enumerate_sparse grads i values indices 0 [] h Hi) as Hs.
  pose proof (for_enumerate_counter grads 0 [] h) as Hc.
  destruct (for_enumerate 0 grads [] h) as [h1 [r|e]]; simplify_eq/=. done.
Qed.

(** ** The call, statement by statement *)

Lemma _allreduce_helper_eq res h :
  _allreduce_helper res h = (h, Return (reduced h res)).
Proof.
  unfold _allreduce_helper, reduced. unfold_M.
  by destruct (1 <? aggregation_frequency h)%Z.
Qed.

Lemma compute_gradients_eq grads h :
  compute_gradients grads h =
    match for_enumerate 0 grads [] h with
    | (h1, Raise e) => (h1, Raise e)
    | (h1, Return res) =>
      if size (shadow_var h1) + num_none_grad_updates h1 =? length grads then
        let h2 := set_counter (λ c, c + 1)%Z h1 in
        if (counter h1 + 1 =? aggregation_frequency h1)%Z then
          let red := reduced h1 res in
          if length red =? size (shadow_var h1) then
            match rebuild (shadow_var h1) red
                    (seq 0 (length red + num_none_grad_updates h1)) with
            | Return out =>
              if length out
                 =? size (shadow_var h1) + num_none_grad_updates h1
              then (set_shadow_var
                      (fmap (λ v, tensor_add v (tensor_mul_int (-1) v)))
                      (set_counter (λ _, 0%Z) h2), Return out)
              else (h2, Raise (AssertionError OutputLength))
            | Raise e => (h2, Raise e)
            end
          else (h2, Raise (AssertionError ReducedLength))
        else (h2, Return res)
      else (h1, Raise AccumulationInvariantViolated)
    end.
Proof.
  unfold compute_gradients, _clear_vars. unfold_M.
  destruct (for_enumerate 0 grads [] h) as [h1 [res|e]]; [|done].
  destruct (size (shadow_var h1) + num_none_grad_updates h1 =? length grads);
    [|done].
  cbn. destruct (counter h1 + 1 =? aggregation_frequency h1)%Z; [|done].
  rewrite _allreduce_helper_eq. cbv zeta.
  change (reduced (set_counter _ h1) res) with (reduced h1 res).
  generalize (reduced h1 res). intros red.
  destruct (length red =? size (shadow_var h1)); [|done].
  destruct (rebuild _ _ _) as [out|e]; [|done].
  by destruct (length out =? _).
Qed.

Lemma rebuild_raises (shadow : gmap nat T) red idxs e :
  rebuild shadow red idxs = Raise e → e = IndexError.
Proof.
  induction idxs as [|idx idxs IH]; cbn; [done|].
  destruct (shadow !! idx), (red !! idx), (rebuild shadow red idxs);
    naive_solver.
Qed.

Lemma rebuild_length (shadow : gmap nat T) red idxs out :
  rebuild shadow red idxs = Return out → length out = length idxs.
Proof.
  revert out. induction idxs as [|idx idxs IH]; intros out; cbn.
  - by intros [= <-].
  - destruct (shadow !! idx), (red !! idx), (rebuild shadow red idxs);
      intros ?; simplify_eq; cbn; f_equal; by apply IH.
Qed.

(** The loop appends one value per input that is not [None]. *)
Lemma for_enumerate_length grads idx res h h' res' :
  for_enumerate idx grads res h = (h', Return res') →
  length res' = length res + length (filter (λ g, is_not_none g) grads).
Proof.
  revert idx res h. induction grads as [|g grads IH]; intros idx res h.
  - intros [= _ <-]. cbn. lia.
  - rewrite for_enumerate_cons. destruct g.
    + rewrite loop_body_Tensor. intros Hl. cbn in Hl. apply IH in Hl.
      rewrite length_app in Hl. rewrite filter_cons_True by done. cbn in *. lia.
    + by rewrite loop_body_IndexedSlices.
    + rewrite loop_body_NoneGrad. intros Hl. apply IH in Hl.
      by rewrite filter_cons_False by (cbn; auto).
Qed.

(** After a call that returns, the counter is [0] exactly when the call
    was a synchronization step. *)
Lemma compute_gradients_counter h h' grads out :
  compute_gradients grads h = (h', Return out) →
  counter h' = if sync_step h then 0%Z else (counter h + 1)%Z.
Proof.
  rewrite compute_gradients_eq.
  pose proof (for_enumerate_counter grads 0 [] h) as Hc.
  pose proof (for_enumerate_frequency grads 0 [] h) as Hf.
  destruct (for_enumerate 0 grads [] h) as [h1 [res|e]]; [|done].
  cbn in Hc, Hf. unfold sync_step. rewrite <-Hc, <-Hf.
  destruct (_ =? length grads); [|done]. cbv zeta.
  destruct (counter h1 + 1 =? aggregation_frequency h1)%Z.
  - destruct (length _ =? size _); [|done].
    destruct (rebuild _ _ _) as [out'|]; [|done].
    destruct (length out' =? _); [|done]. by intros [= <- _].
  - by intros [= <- _].
Qed.

(** ** Calls whose every position is dense *)

Lemma size_map_seq (start : nat) (xs : list T) :
  size (map_seq start xs : gmap nat T) = length xs.
Proof.
  revert start. induction xs as [|x xs IH]; intros start; cbn.
  - apply map_size_empty.
  - rewrite map_size_insert_None by apply map_seq_cons_disjoint.
    by rewrite IH.
Qed.

Lemma set_shadow_var_id h : set_shadow_var (λ _, shadow_var h) h = h.
Proof. by destruct h. Qed.

(** First sight of the slots: the buffers are allocated as zeros and the
    gradients are added to them. *)
Lemma for_enumerate_dense_fresh (gs done : list T) res h :
  shadow_var h = map_seq 0 done →
  for_enumerate (length done) (dense gs) res h =
    let news := (λ g, tensor_add (zeros_like g) g) <$> gs in
    (set_shadow_var (λ _, map_seq 0 (done ++ news)) h,
     Return (res ++ dense news)).
Proof.
  revert done res h. induction gs as [|g gs IH]; intros done res h Hm.
  - cbn. unfold_M. rewrite !app_nil_r, <-Hm. by rewrite set_shadow_var_id.
  - unfold dense. rewrite fmap_cons, for_enumerate_cons, loop_body_Tensor.
    cbv zeta. rewrite Hm, lookup_map_seq_0, lookup_ge_None_2 by lia. cbn.
    set (v' := tensor_add (zeros_like g) g).
    replace (S (length done)) with (length (done ++ [v']))
      by (rewrite length_app; cbn; lia).
    fold (dense gs). rewrite IH.
    + cbv zeta. unfold set_shadow_var. cbn. by rewrite <-!app_assoc.
    + cbn. by rewrite Hm, map_seq_snoc.
Qed.

(** Later calls: the gradients are added to the buffers that exist. *)
Lemma for_enumerate_dense_warm (gs bufs done : list T) res h :
  length bufs = length gs →
  shadow_var h = map_seq 0 (done ++ bufs) →
  for_enumerate (length done) (dense gs) res h =
    let news := zip_with tensor_add bufs gs in
    (set_shadow_var (λ _, map_seq 0 (done ++ news)) h,
     Return (res ++ dense news)).
Proof.
  revert bufs done res h.
  induction gs as [|g gs IH]; intros [|b bufs] done res h Hl Hm;
    try discriminate.
  - cbn. unfold_M. rewrite !app_nil_r. rewrite app_nil_r in Hm.
    by rewrite <-Hm, set_shadow_var_id.
  - unfold dense. rewrite fmap_cons, for_enumerate_cons, loop_body_Tensor.
    cbv zeta. rewrite Hm, lookup_map_seq_0, list_lookup_middle by done. cbn.
    set (v' := tensor_add b g).
    replace (S (length done)) with (length (done ++ [v']))
      by (rewrite length_app; cbn; lia).
    fold (dense gs). rewrite (IH bufs).
    + cbv zeta. unfold set_shadow_var. cbn. by rewrite <-!app_assoc.
    + cbn in Hl. lia.
    + cbn. rewrite Hm, insert_map_seq_0
        by (rewrite length_app; cbn; lia).
      f_equal. rewrite insert_app_r_alt by lia.
      rewrite Nat.sub_diag. cbn. by rewrite <-app_assoc.
Qed.

Lemma rebuild_all (vals : list T) (red : list (grad T)) n k :
  length red = length vals → k + n = length red →
  rebuild (map_seq 0 vals) red (seq k n) = Return (drop k red).
Proof.
  intros Hl. revert k. induction n as [|n IH]; intros k Hk; cbn.
  - by rewrite drop_ge by lia.
  - rewrite lookup_map_seq_0.
    destruct (lookup_lt_is_Some_2 vals k) as [v ->]; [lia|].
    destruct (lookup_lt_is_Some_2 red k) as [g Hg]; [lia|].
    rewrite Hg, IH by lia. by rewrite (drop_S _ _ _ Hg).
Qed.

(** A call on dense gradients, from a helper whose buffers (if any) are
    [bufs]; [vals] are the buffers after the gradients have been added. *)
Lemma compute_gradients_dense (gs vals : list T) h :
  num_none_grad_updates h = 0 →
  (shadow_var h = ∅ ∧ vals = (λ g, tensor_add (zeros_like g) g) <$> gs) ∨
  (∃ bufs, shadow_var h = map_seq 0 bufs ∧ length bufs = length gs ∧
           vals = zip_with tensor_add bufs gs) →
  compute_gradients (dense gs) h =
    let h2 := set_counter (λ c, c + 1)%Z
                (set_shadow_var (λ _, map_seq 0 vals) h) in
    if sync_step h then
      let red := reduced h (dense vals) in
      if length red =? length vals then
        (set_shadow_var
           (λ _, map_seq 0
                   ((λ v, tensor_add v (tensor_mul_int (-1) v)) <$> vals))
           (set_counter (λ _, 0%Z) h2), Return red)
      else (h2, Raise (AssertionError ReducedLength))
    else (h2, Return (dense vals)).
Proof.
  intros Hn Hs. rewrite compute_gradients_eq.
  assert (for_enumerate 0 (dense gs) [] h =
          (set_shadow_var (λ _, map_seq 0 vals) h, Return (dense vals))
          ∧ length vals = length gs) as [-> Hlen].
  { destruct Hs as [[Hm ->]|(bufs & Hm & Hl & ->)].
    - split; [|by rewrite length_fmap].
      pose proof (for_enumerate_dense_fresh gs [] [] h) as Hf.
      cbn in Hf. rewrite Hf; [done|]. by rewrite Hm.
    - split; [|rewrite length_zip_with; lia].
      pose proof (for_enumerate_dense_warm gs bufs [] [] h) as Hf.
      cbn in Hf. by rewrite Hf. }
  cbn. rewrite size_map_seq, Hn, Nat.add_0_r.
  unfold dense at 1. rewrite length_fmap, Hlen, Nat.eqb_refl.
  unfold sync_step. destruct (counter h + 1 =? aggregation_frequency h)%Z;
    [|done].
  cbv zeta.
  change (reduced (set_shadow_var _ h) (dense vals))
    with (reduced h (dense vals)).
  rewrite <-Hlen.
  destruct (length (reduced h (dense vals)) =? length vals) eqn:E; [|done].
  apply Nat.eqb_eq in E.
  rewrite rebuild_all by lia. rewrite drop_0, E, Nat.eqb_refl.
  unfold set_shadow_var, set_counter. cbn. by rewrite fmap_map_seq.
Qed.

(** ** Runs *)

Lemma run_app calls1 calls2 h :
  run (calls1 ++ calls2) h = run calls1 h ++ run calls2 (state_after calls1 h).
Proof.
  revert h. induction calls1 as [|c calls1 IH]; intros h; [done|].
  cbn. by rewrite IH.
Qed.

Lemma length_run calls h : length (run calls h) = length calls.
Proof.
  revert h. induction calls as [|c calls IH]; intros h; [done|].
  cbn. by rewrite IH.
Qed.

Lemma length_accumulate (bufs : list T) gss :
  Forall (λ gs, length gs = length bufs) gss →
  length (accumulate bufs gss) = length bufs.
Proof.
  revert bufs. induction gss as [|gs gss IH]; intros bufs Hall; [done|].
  apply Forall_cons in Hall as [Hgs Hall].
  change (accumulate bufs (gs :: gss))
    with (accumulate (zip_with tensor_add bufs gs) gss).
  assert (length (zip_with tensor_add bufs gs) = length bufs) as Hz
    by (rewrite length_zip_with; lia).
  rewrite IH; [done|]. by rewrite Hz.
Qed.

(** Calls before the boundary: the gradients pile up in the buffers and
    the provisional sums are returned. *)
Lemma run_accumulating gss (bufs : list T) h :
  num_none_grad_updates h = 0 →
  shadow_var h = map_seq 0 bufs →
  Forall (λ gs, length gs = length bufs) gss →
  (counter h + Z.of_nat (length gss) < aggregation_frequency h)%Z →
  state_after (dense <$> gss) h =
    set_counter (λ c, c + Z.of_nat (length gss))%Z
      (set_shadow_var (λ _, map_seq 0 (accumulate bufs gss)) h)
  ∧ ∀ k, k < length gss →
      run (dense <$> gss) h !! k =
        Some (set_counter (λ c, c + Z.of_nat (S k))%Z
                (set_shadow_var
                   (λ _, map_seq 0 (accumulate bufs (take (S k) gss))) h),
              Return (dense (accumulate bufs (take (S k) gss)))).
Proof.
  revert bufs h. induction gss as [|gs gss IH]; intros bufs h Hn Hm Hall Hc.
  - split; [|cbn; lia]. cbn. change (accumulate bufs []) with bufs.
    rewrite <-Hm. destruct h; cbn.
    unfold set_counter, set_shadow_var; cbn. f_equal. lia.
  - apply Forall_cons in Hall as [Hgs Hall].
    assert (compute_gradients (dense gs) h =
            (set_counter (λ c, c + 1)%Z
               (set_shadow_var
                  (λ _, map_seq 0 (zip_with tensor_add bufs gs)) h),
             Return (dense (zip_with tensor_add bufs gs)))) as Hcall.
    { rewrite (compute_gradients_dense gs (zip_with tensor_add bufs gs))
        by (done || right; exists bufs; done).
      cbv zeta. unfold sync_step.
      destruct (Z.eqb_spec (counter h + 1) (aggregation_frequency h));
        [cbn in Hc; lia|done]. }
    set (vals := zip_with tensor_add bufs gs) in *.
    assert (length vals = length bufs) as Hv
      by (unfold vals; rewrite length_zip_with; lia).
    destruct (IH vals
                (set_counter (λ c, c + 1)%Z
                   (set_shadow_var (λ _, map_seq 0 vals) h)))
      as [IHs IHr]; [done|done|by rewrite Hv|cbn in *; lia|].
    split.
    + cbn. rewrite Hcall. cbn. unfold state_after in IHs. rewrite IHs.
      unfold set_counter, set_shadow_var; cbn. f_equal. lia.
    + intros [|k] Hk.
      * cbn. by rewrite Hcall.
      * cbn. rewrite Hcall. cbn. rewrite IHr by (cbn in Hk; lia).
        unfold set_counter, set_shadow_var; cbn. do 3 f_equal. lia.
Qed.

(** The call at the boundary. *)
Lemma compute_gradients_boundary gs (bufs : list T) h :
  num_none_grad_updates h = 0 →
  shadow_var h = map_seq 0 bufs →
  length gs = length bufs →
  (counter h + 1 = aggregation_frequency h)%Z →
  length_preserving (_allreduce_grads h) →
  compute_gradients (dense gs) h =
    let vals := zip_with tensor_add bufs gs in
    (set_shadow_var
       (λ _, map_seq 0 ((λ v, tensor_add v (tensor_mul_int (-1) v)) <$> vals))
       (set_counter (λ _, 0%Z) h),
     Return (reduced h (dense vals))).
Proof.
  intros Hn Hm Hl Hc Hlp.
  rewrite (compute_gradients_dense gs (zip_with tensor_add bufs gs))
    by (done || right; exists bufs; done).
  cbv zeta. unfold sync_step. rewrite Hc, Z.eqb_refl.
  set (vals := zip_with tensor_add bufs gs).
  assert (length (reduced h (dense vals)) = length vals) as ->.
  { unfold reduced. destruct (1 <? _)%Z; rewrite ?length_fmap, Hlp;
      unfold dense; by rewrite length_fmap. }
  by rewrite Nat.eqb_refl.
Qed.

End HelperFacts.

Section DenseCycles.

Context {T : Type} `{TensorOps T} `{!TensorLaws T}.
Implicit Types (h : helper T) (gs bufs : list T) (gss : list (list T)).

Lemma zip_zeros (zs gs : list T) :
  length zs = length gs →
  zip_with tensor_add (zeros_like <$> zs) gs = gs.
Proof using All.
  revert gs. induction zs as [|z zs IH]; intros [|g gs] Hl;
    try discriminate; [done|].
  cbn. rewrite add_zeros_l. f_equal. apply IH. cbn in Hl. lia.
Qed.

Lemma accumulate_zeros (zs gs : list T) gss :
  length zs = length gs →
  accumulate (zeros_like <$> zs) (gs :: gss) = slot_sums (gs :: gss).
Proof using All.
  intros Hl. cbn.
  change (accumulate (zeros_like <$> zs) (gs :: gss))
    with (accumulate (zip_with tensor_add (zeros_like <$> zs) gs) gss).
  by rewrite zip_zeros.
Qed.

Lemma reset_zeros (vals : list T) :
  (λ v, tensor_add v (tensor_mul_int (-1) v)) <$> vals = zeros_like <$> vals.
Proof using All. apply list_fmap_ext. intros _ v _. apply add_neg_self. Qed.

Lemma accumulate_snoc bufs gss gs :
  accumulate bufs (gss ++ [gs]) = zip_with tensor_add (accumulate bufs gss) gs.
Proof. unfold accumulate. by rewrite fold_left_app. Qed.

(** The first call on a fresh helper goes as if the buffers were there
    already, holding zeros. *)
Lemma run_fresh gs calls h :
  shadow_var h = ∅ → num_none_grad_updates h = 0 →
  run (dense gs :: calls) h =
  run (dense gs :: calls)
    (set_shadow_var (λ _, map_seq 0 (zeros_like <$> gs)) h).
Proof.
  intros Hm Hn. cbn.
  set (vals := (λ g, tensor_add (zeros_like g) g) <$> gs).
  rewrite (compute_gradients_dense gs vals h) by (done || by left).
  rewrite (compute_gradients_dense gs vals (set_shadow_var _ h)); [done|done|].
  right. exists (zeros_like <$> gs). split_and!; [done|by rewrite length_fmap|].
  unfold vals. clear. induction gs as [|g gs IH]; [done|]. cbn. by rewrite IH.
Qed.

Lemma cycle_run P h gss :
  cycle_start P h →
  length_preserving (_allreduce_grads h) →
  gss ≠ [] →
  Forall (λ gs, length gs = P) gss →
  Z.of_nat (length gss) = aggregation_frequency h →
  (∀ k, S k < length gss →
     run (dense <$> gss) h !! k =
       Some (set_counter (λ _, Z.of_nat (S k))
               (set_shadow_var
                  (λ _, map_seq 0 (slot_sums (take (S k) gss))) h),
             Return (dense (slot_sums (take (S k) gss)))))
  ∧ run (dense <$> gss) h !! (length gss - 1) =
      Some (set_counter (λ _, 0%Z)
              (set_shadow_var
                 (λ _, map_seq 0 (zeros_like <$> slot_sums gss)) h),
            Return (reduced h (dense (slot_sums gss)))).
Proof using All.
  intros (Hc & Hn & Hm) Hlp Hne Hall Hf.
  destruct gss as [|g rest]; [done|]. clear Hne.
  pose proof Hall as Hall'. apply Forall_cons in Hall' as [Hg _].
  (* the helper with its buffers in place *)
  assert (∃ zs, length zs = P ∧
            run (dense <$> g :: rest) h =
            run (dense <$> g :: rest)
              (set_shadow_var (λ _, map_seq 0 (zeros_like <$> zs)) h))
    as (zs & Hzs & ->).
  { destruct Hm as [Hm|(bufs & Hb & Hm)].
    - exists g. split; [done|]. rewrite fmap_cons. by apply run_fresh.
    - exists bufs. split; [done|]. by rewrite <-Hm, set_shadow_var_id. }
  set (hw := set_shadow_var (λ _, map_seq 0 (zeros_like <$> zs)) h).
  set (bufs0 := zeros_like <$> zs).
  assert (length bufs0 = P) as Hb0 by (unfold bufs0; by rewrite length_fmap).
  destruct (exists_last (l := g :: rest)) as (front & last & Hfl); [done|].
  rewrite Hfl in *. rewrite length_app in *. cbn [length] in *.
  apply Forall_app in Hall as [Hfront Hlast].
  rewrite Forall_singleton in Hlast.
  destruct (run_accumulating front bufs0 hw) as [Hst Hrun];
    [done|done|by rewrite Hb0|cbn; lia|].
  rewrite fmap_app, run_app. split.
  - intros k Hk. rewrite lookup_app_l by (rewrite length_run, length_fmap; lia).
    rewrite Hrun by lia. rewrite take_app_le by lia.
    assert (accumulate bufs0 (take (S k) front)
            = slot_sums (take (S k) front)) as ->.
    { destruct front as [|g' front]; [cbn in Hk; lia|].
      apply accumulate_zeros. apply Forall_cons in Hfront as [-> _]. lia. }
    unfold hw, set_counter, set_shadow_var. cbn. rewrite Hc. done.
  - rewrite lookup_app_r by (rewrite length_run, length_fmap; lia).
    rewrite length_run, length_fmap.
    replace (length front + 1 - 1 - length front) with 0 by lia.
    cbn. f_equal. rewrite Hst.
    rewrite (compute_gradients_boundary last (accumulate bufs0 front)).
    2: done. 2: done.
    2:{ rewrite length_accumulate; [lia|]. by rewrite Hb0. }
    2:{ unfold hw. cbn. lia. }
    2: done.
    cbv zeta. rewrite <-accumulate_snoc.
    assert (accumulate bufs0 (front ++ [last]) = slot_sums (front ++ [last]))
      as ->.
    { rewrite <-Hfl. apply accumulate_zeros. lia. }
    by rewrite reset_zeros.
Qed.

Lemma init_cycle_start P f allreduce sparse average h :
  init f allreduce sparse average = Return h → cycle_start P h.
Proof.
  unfold init. destruct (0 <? f)%Z; [|done]. intros [= <-].
  split_and!; [done|done|by left].
Qed.

End DenseCycles.

(** ** The rationals satisfy the tensor laws *)

#[global] Instance Qc_tensor_laws : TensorLaws Qc.
Proof.
  split; cbn; unfold qc.
  - intros _ y. apply Qcplus_0_l.
  - intros x. change (Q2Qc (inject_Z (-1))) with (- (1))%Qc.
    change (Q2Qc (inject_Z 0)) with 0%Qc. ring.
  - done.
  - intros x. change (Q2Qc (inject_Z 1)) with 1%Qc. field. discriminate.
Qed.

Lemma length_preserving_id {T} : length_preserving (@id (list (grad T))).
Proof. by intros grads. Qed.

Lemma length_preserving_sparse_reduce : length_preserving sparse_reduce.
Proof. intros grads. unfold sparse_reduce. by rewrite length_fmap. Qed.

Lemma fresh_cycle_start P f allreduce sparse average :
  cycle_start P (fresh f allreduce sparse average).
Proof. split_and!; [done|done|by left]. Qed.

(** * The claims *)

Section Claims.

Context {T : Type} `{TensorOps T}.
Implicit Types (h : helper T) (grads res : list (grad T)).

(** ** Sparse gradients *)

(** C8. A call whose input holds a sparse gradient at some position, on a
    helper whose [sparse_as_dense] flag is off, fails with the
    sparse-gradient error on that very call, before the step is counted,
    and whatever the aggregation frequency of the helper is. *)
Theorem sparse_gradient_rejected h grads i values indices :
  _sparse_as_dense h = false →
  grads !! i = Some (IndexedSlices values indices) →
  (compute_gradients grads h).2 = Raise UnsupportedSparseGradient
  ∧ counter (compute_gradients grads h).1 = counter h.
Proof.
  intros _ Hi. by eapply compute_gradients_sparse.
Qed.

Lemma for_enumerate_flag b grads idx res h :
  for_enumerate idx grads res (set_sparse_as_dense b h) =
    (set_sparse_as_dense b (for_enumerate idx grads res h).1,
     (for_enumerate idx grads res h).2).
Proof.
  revert idx res h. induction grads as [|g grads IH]; intros idx res h; [done|].
  rewrite !for_enumerate_cons. destruct g.
  - rewrite !loop_body_Tensor. cbn. by rewrite <-IH.
  - by rewrite !loop_body_IndexedSlices.
  - rewrite !loop_body_NoneGrad. cbn.
    destruct (shadow_var h !! idx); by rewrite <-IH.
Qed.

Lemma compute_gradients_flag b grads h :
  compute_gradients grads (set_sparse_as_dense b h) =
    (set_sparse_as_dense b (compute_gradients grads h).1,
     (compute_gradients grads h).2).
Proof.
  rewrite !compute_gradients_eq, for_enumerate_flag.
  destruct (for_enumerate 0 grads [] h) as [h1 [res|e]]; cbn; [|done].
  change (reduced (set_sparse_as_dense b h1) res) with (reduced h1 res).
  repeat (case_match; try done).
Qed.

(** C10. The accumulation path never reads the [sparse_as_dense] flag:
    a call behaves the same whatever the flag is set to, and so a sparse
    gradient in the input is rejected with the sparse-gradient error even
    on a helper whose flag is on. *)
Theorem sparse_gradient_rejected_whatever_the_flag h grads i values indices :
  _sparse_as_dense h = true →
  grads !! i = Some (IndexedSlices values indices) →
  (compute_gradients grads h).2 = Raise UnsupportedSparseGradient
  ∧ ∀ b grads',
      compute_gradients grads' (set_sparse_as_dense b h) =
        (set_sparse_as_dense b (compute_gradients grads' h).1,
         (compute_gradients grads' h).2).
Proof.
  intros _ Hi. split.
  - by eapply compute_gradients_sparse.
  - intros b grads'. apply compute_gradients_flag.
Qed.

(** ** The invariant check *)


(** ** The length of the output *)

(** C5, as the code has it.  A call that returns hands back one entry
    per input position when it is a synchronization step; on every other
    step it hands back the provisional list, which has one entry per
    input position that is not [None]. *)
Theorem output_length h grads h' out :
  compute_gradients grads h = (h', Return out) →
  length out =
    if sync_step h then length grads
    else length (filter (λ g, is_not_none g) grads).
Proof.
  rewrite compute_gradients_eq.
  destruct (for_enumerate 0 grads [] h) as [h1 [res|e]] eqn:Hloop; [|done].
  pose proof (for_enumerate_counter grads 0 [] h) as Hc.
  rewrite Hloop in Hc. cbn in Hc.
  pose proof (for_enumerate_frequency grads 0 [] h) as Hf.
  rewrite Hloop in Hf. cbn in Hf.
  apply for_enumerate_length in Hloop. cbn in Hloop.
  unfold sync_step. rewrite <-Hc, <-Hf.
  destruct (Nat.eqb_spec (size (shadow_var h1) + num_none_grad_updates h1)
              (length grads)) as [Heq|]; [|done].
  cbv zeta.
  destruct (counter h1 + 1 =? aggregation_frequency h1)%Z.
  - destruct (Nat.eqb_spec (length (reduced h1 res)) (size (shadow_var h1)))
      as [Hr|]; [|done].
    destruct (rebuild _ _ _) as [out'|] eqn:Hrb; [|done].
    destruct (length out' =? _); [|done]. intros [= _ <-].
    apply rebuild_length in Hrb. rewrite length_seq in Hrb. lia.
  - by intros [= _ <-].
Qed.

End Claims.

Section CycleClaims.

Context {T : Type} `{TensorOps T} `{!TensorLaws T}.
Implicit Types (h : helper T) (gss : list (list T)).

(** ** The aggregation cycle *)

(** X14.  Under exact tensor arithmetic ([TensorLaws]) and with a reduce
    that returns one value per buffer: for a frequency [f > 1], on a
    helper at the start of a cycle, [f] consecutive calls that carry a
    dense gradient at every one of the [P] positions obey the cycle law:
    no synchronization is reported by the first [f - 1] calls, one is
    reported by the last, and after it every buffer is zero and the
    counter is [0]. *)
Theorem cycle_law_dense P h gss :
  (1 < aggregation_frequency h)%Z →
  cycle_start P h →
  length_preserving (_allreduce_grads h) →
  Forall (λ gs, length gs = P) gss →
  Z.of_nat (length gss) = aggregation_frequency h →
  same_presence (dense <$> gss) ∧ cycle_law h (dense <$> gss).
Proof using All.
  intros Hf Hstart Hlp Hall Hlen. split.
  { intros c1 c2 (g1 & -> & Hg1)%list_elem_of_fmap
      (g2 & -> & Hg2)%list_elem_of_fmap.
    rewrite Forall_forall in Hall.
    unfold presence, dense. rewrite <-!list_fmap_compose.
    assert (∀ gs : list T, (is_not_none ∘ Tensor) <$> gs
                           = replicate (length gs) true) as Hrep.
    { intros gs. induction gs as [|g gs IH]; [done|]. cbn. by rewrite IH. }
    rewrite !Hrep. by rewrite (Hall g1), (Hall g2). }
  destruct (cycle_run P h gss) as [Hfront Hlast]; try done.
  { intros ->. cbn in Hlen. lia. }
  unfold cycle_law. cbv zeta.
  rewrite <-Hlen, Nat2Z.id. split.
  - intros k Hk. eexists _, _. split; [apply Hfront; lia|].
    unfold counter_is_zero. apply Z.eqb_neq. cbn. lia.
  - eexists _, _. split; [apply Hlast|]. split_and!; [done| |done].
    intros i v. cbn. rewrite lookup_map_seq_0, list_lookup_fmap.
    destruct (slot_sums gss !! i) as [s|]; [|done].
    intros [= <-]. by rewrite zeros_like_zeros.
Qed.

(** ** The sum law and the averaging law *)

(** C2, as the code has it.  On a helper at the start of a cycle, after
    [f] calls that carry dense gradients at all [P] positions, the call at
    the boundary hands the external reduce the slot sums
    [g_1 + ... + g_f], added in call order.  For every slot, a dense
    reduced value comes back divided by the frequency when averaging is on
    and [f > 1], and as it is otherwise; a reduced value that is [None] or
    sparse comes back as it is. *)
Theorem reduce_gets_sums_and_result_is_scaled P h gss :
  cycle_start P h →
  length_preserving (_allreduce_grads h) →
  Forall (λ gs, length gs = P) gss →
  Z.of_nat (length gss) = aggregation_frequency h →
  gss ≠ [] →
  ∃ hf out,
    run (dense <$> gss) h !! (length gss - 1) = Some (hf, Return out) ∧
    out = reduced h (dense (slot_sums gss)) ∧
    length out = P ∧
    ∀ k r, _allreduce_grads h (dense (slot_sums gss)) !! k = Some r →
      out !! k =
        Some (if average_aggregated_gradients h
                 && (1 <? aggregation_frequency h)%Z
              then scale_grad (aggregation_frequency h) r
              else r).
Proof using All.
  intros Hstart Hlp Hall Hlen Hne.
  destruct (cycle_run P h gss) as [_ Hlast]; try done.
  eexists _, _. split; [apply Hlast|]. split; [done|]. split.
  - assert (length (slot_sums gss) = P) as Hs.
    { destruct gss as [|g rest]; [done|].
      apply Forall_cons in Hall as [Hg Hrest]. cbn.
      rewrite length_accumulate; [done|]. by rewrite Hg. }
    unfold reduced. destruct (1 <? _)%Z; rewrite ?length_fmap, Hlp;
      unfold dense; by rewrite length_fmap.
  - intros k r Hk. unfold reduced.
    destruct (1 <? aggregation_frequency h)%Z.
    + rewrite list_lookup_fmap, Hk. cbn.
      destruct (average_aggregated_gradients h); cbn; [done|].
      destruct r; cbn; by rewrite ?div_one.
    + by rewrite andb_false_r.
Qed.

(** ** Frequency one *)

(** X15.  With [aggregation_frequency = 1], on a helper at the start of
    a cycle, every call that returns, on whatever input, is a
    synchronization step: it finds the counter at [0] and leaves it at
    [0].  And under exact tensor arithmetic ([TensorLaws]), with a reduce
    that returns one value per value given, every call of a run on dense
    gradients returns, and returns the external reduce of the gradients
    it was given, with no scaling. *)
Theorem frequency_one_synchronizes_every_call P h gss k gs :
  aggregation_frequency h = 1%Z →
  cycle_start P h →
  length_preserving (_allreduce_grads h) →
  Forall (λ gs, length gs = P) gss →
  gss !! k = Some gs →
  (∀ grads h' out,
     compute_gradients grads h = (h', Return out) →
     sync_step h = true ∧ counter_is_zero h' = true) ∧
  ∃ hk, run (dense <$> gss) h !! k
          = Some (hk, Return (_allreduce_grads h (dense gs)))
        ∧ counter_is_zero hk = true.
Proof using All.
  intros Hf Hstart Hlp Hall Hk. split.
  { intros grads h' out Hcall. apply compute_gradients_counter in Hcall.
    destruct Hstart as (Hc & _). unfold sync_step, counter_is_zero in *.
    rewrite Hc, Hf in *. cbn in Hcall. by rewrite Hcall. }
  revert h k Hf Hstart Hlp Hk.
  induction gss as [|g rest IH]; intros h k Hf Hstart Hlp Hk;
    [by rewrite lookup_nil in Hk|].
  apply Forall_cons in Hall as [Hg Hrest].
  destruct (cycle_run P h [g]) as [_ Hcall]; try done.
  { by apply Forall_singleton. }
  cbn in Hcall. injection Hcall as Hcall.
  unfold reduced in Hcall. rewrite Hf in Hcall. cbn in Hcall.
  change (accumulate g []) with g in Hcall.
  destruct k as [|k].
  - cbn in Hk. injection Hk as <-. cbn. rewrite Hcall. by eexists.
  - cbn in Hk. cbn. rewrite Hcall. cbn.
    destruct (IH Hrest
                (set_counter (λ _, 0%Z)
                   (set_shadow_var (λ _, map_seq 0 (zeros_like <$> g)) h)))
      with (k := k) as (hk & Hrun & Hz); try done.
    + split_and!; [done|by destruct Hstart as (_ & ? & _)|].
      right. by exists g.
    + by exists hk.
Qed.

End CycleClaims.

Section GateClaims.

Context {T : Type} `{TensorOps T} {World R GV : Type}.

(** ** The apply gate *)

(** C7, as the code has it.  After a call of [compute_gradients] that
    returned, the gate runs exactly one branch of its [tf.cond], and
    returns the value and the world that branch leaves.  When the call
    was a synchronization step it is the applying branch: before
    TensorFlow 2.4 the closure handed in, run on the world as it is; from
    2.4 on the parent's [apply_gradients], run on the result of
    [_aggregate_gradients] with [experimental_aggregate_gradients] set to
    [False] (and [name] set from the second positional argument), the
    closure handed in being left alone.  Otherwise it is the branch that
    increments the optimizer's iteration when there is one and does
    nothing else. *)
Theorem apply_gate_runs_one_branch (_PRE_TF_2_4_0 : bool)
    (h h' : helper T) grads out
    (apply_grads_closure : World → R * World) (opt : optimizer World R GV)
    (args : list (pyarg GV)) (kwargs : gmap string (pyarg GV))
    (w w' : World) (v : cond_value R) (called : list branch) :
  (0 ≤ counter h < aggregation_frequency h)%Z →
  compute_gradients grads h = (h', Return out) →
  apply_gradients _PRE_TF_2_4_0 h' apply_grads_closure opt args kwargs w
    = Return (v, w', called) →
  let increment (w0 : World) : cond_value R * World :=
    match _iterations opt w0 with
    | Some _ => (AssignAddOp, _iterations_assign_add opt 1 w0)
    | None => (NoOp, w0)
    end in
  if _PRE_TF_2_4_0 then
    if sync_step h
    then called = [true_fn]
         ∧ v = Applied (apply_grads_closure w).1
         ∧ w' = (apply_grads_closure w).2
    else called = [false_fn] ∧ (v, w') = increment w
  else
    ∃ a0, args !! 0 = Some a0 ∧
      let updated := (_aggregate_gradients opt a0 w).1 in
      let w1 := (_aggregate_gradients opt a0 w).2 in
      let kw := <["experimental_aggregate_gradients" := PyBool false]>
                  (match args !! 1 with
                   | Some name => <["name" := name]> kwargs
                   | None => kwargs
                   end) in
      if sync_step h
      then called = [true_fn]
           ∧ v = Applied (super_apply_gradients opt updated kw w1).1
           ∧ w' = (super_apply_gradients opt updated kw w1).2
      else called = [false_fn] ∧ (v, w') = increment w1.
Proof.
  intros Hc Hcall. apply compute_gradients_counter in Hcall.
  unfold apply_gradients, tf_cond, aggregation_step, non_aggregation_step,
    increment_optimizer_iteration, applied.
  assert ((counter h' =? 0)%Z = sync_step h) as ->.
  { rewrite Hcall. destruct (sync_step h); [done|]. apply Z.eqb_neq. lia. }
  cbv zeta. destruct _PRE_TF_2_4_0.
  - intros Hr. destruct (sync_step h); by simplify_eq.
  - destruct (args !! 0) as [a0|]; [|done].
    destruct (_aggregate_gradients opt a0 w) as [updated w1] eqn:Hagg.
    intros Hr. exists a0. split; [done|]. rewrite Hagg. cbn.
    destruct (sync_step h); by simplify_eq.
Qed.

End GateClaims.

(** * Runs on rational tensors *)

(** ** The end-to-end example *)

(** C3.  Frequency 3, two parameters, gradients [1, 10], [2, 20] and
    [3, 30], averaging on, a single worker (the reduce is the identity):
    the first two calls report no synchronization, the third reports one
    and returns [2, 20], and both buffers are zero afterwards. *)
Theorem end_to_end_example :
  let h := single_worker 3 true in
  let rs := run (dense <$> [[qc 1; qc 10]; [qc 2; qc 20]; [qc 3; qc 30]]) h in
  length rs = 3 ∧
  ∃ h1 h2 h3 out1 out2,
    rs !! 0 = Some (h1, Return out1) ∧ counter_is_zero h1 = false ∧
    rs !! 1 = Some (h2, Return out2) ∧ counter_is_zero h2 = false ∧
    rs !! 2 = Some (h3, Return [Tensor (qc 2); Tensor (qc 20)]) ∧
    counter_is_zero h3 = true ∧
    shadow_var h3 = map_seq 0 [qc 0; qc 0].
Proof.
  cbv zeta. split; [done|].
  destruct (cycle_run 2 (single_worker 3 true)
              [[qc 1; qc 10]; [qc 2; qc 20]; [qc 3; qc 30]])
    as [Hfront Hlast].
  { apply fresh_cycle_start. }
  { apply length_preserving_id. }
  { done. }
  { by repeat constructor. }
  { done. }
  eexists _, _, _, _, _.
  split; [by apply (Hfront 0); cbn; lia|]. split; [done|].
  split; [by apply (Hfront 1); cbn; lia|]. split; [done|].
  split.
  - etrans; [apply Hlast|]. do 3 f_equal.
    unfold reduced, slot_sums, accumulate. cbn.
    repeat f_equal; apply Qc_is_canon; reflexivity.
  - done.
Qed.

(** ** Absent gradients *)

(** C4, on the code.  With frequency 1, a first call whose gradient is
    absent at position 0 and present at position 1 does not return the
    list [[None; reduced]]: rebuilding the output reads the reduced list,
    which has one entry, at index 1, and the call raises [IndexError].
    And when an absent gradient comes after the present ones, the first
    call returns, but the second call with the same input counts the
    absent position again and fails the invariant check. *)
Theorem absent_slot_breaks_the_call :
  (compute_gradients [NoneGrad; Tensor (qc 5)] (single_worker 1 false)).2
    = Raise IndexError
  ∧ snd <$> run [[Tensor (qc 5); NoneGrad]; [Tensor (qc 5); NoneGrad]]
              (single_worker 1 false) !! 1
    = Some (Raise AccumulationInvariantViolated).
Proof. split; vm_compute; reflexivity. Qed.

(** C1, on the code.  With frequency 2 on a fresh helper, two calls that
    both carry no gradient at position 0 and a gradient at position 1
    have the same presence pattern.  The first returns without
    synchronizing.  The second counts the absent position a second time
    (line 58), so that the helper's own assertion of line 64 fails: the
    call raises instead of reporting the synchronization, and the cycle
    law does not hold. *)
Theorem absent_pattern_breaks_the_cycle :
  let h := single_worker 2 true in
  let calls := [[NoneGrad; Tensor (qc 1)]; [NoneGrad; Tensor (qc 2)]] in
  (1 < aggregation_frequency h)%Z
  ∧ Z.of_nat (length calls) = aggregation_frequency h
  ∧ cycle_start 2 h
  ∧ same_presence calls
  ∧ (∃ h1 out, run calls h !! 0 = Some (h1, Return out)
               ∧ counter_is_zero h1 = false
               ∧ num_none_grad_updates h1 = 1)
  ∧ (∃ h2, run calls h !! 1 = Some (h2, Raise AccumulationInvariantViolated)
           ∧ num_none_grad_updates h2 = 2
           ∧ size (shadow_var h2) = 1)
  ∧ ¬ cycle_law h calls.
Proof.
  cbv zeta. split_and!; [done|done|apply fresh_cycle_start| | | |].
  - intros c1 c2 H1 H2. rewrite !elem_of_cons, elem_of_nil in H1, H2.
    by destruct H1 as [->|[->|[]]], H2 as [->|[->|[]]].
  - eexists _, _. split.
    + cbn [run lookup list_lookup]. rewrite compute_gradients_eq.
      reflexivity.
    + by vm_compute.
  - eexists. split.
    + cbn [run lookup list_lookup fst]. rewrite !compute_gradients_eq.
      reflexivity.
    + by vm_compute.
  - intros [_ (hf & out & Hrs & _)]. vm_compute in Hrs. discriminate.
Qed.

(** C6, on the code.  With frequency 1 on a fresh helper whose reduce is
    the identity, a first call on a gradient and an absent gradient
    returns and synchronizes; the second call on such an input counts the
    absent position again, fails the assertion of line 64 and does not
    synchronize.  And a first call on an absent gradient followed by a
    gradient raises [IndexError] while it synchronizes, leaving the
    counter at 1, so that it has not returned the reduce of its input. *)
Theorem frequency_one_fails_on_absent_positions :
  let h := single_worker 1 true in
  let calls := [[Tensor (qc 5); NoneGrad]; [Tensor (qc 6); NoneGrad]] in
  aggregation_frequency h = 1%Z
  ∧ (∃ h1 out, run calls h !! 0 = Some (h1, Return out)
               ∧ counter_is_zero h1 = true)
  ∧ (∃ h2, run calls h !! 1 = Some (h2, Raise AccumulationInvariantViolated))
  ∧ (∃ h3, compute_gradients [NoneGrad; Tensor (qc 5)] h
           = (h3, Raise IndexError)
           ∧ counter h3 = 1%Z).
Proof.
  cbv zeta. split_and!; [done| | |].
  - eexists _, _. split.
    + cbn [run lookup list_lookup]. rewrite compute_gradients_eq.
      reflexivity.
    + by vm_compute.
  - eexists. cbn [run lookup list_lookup fst].
    rewrite !compute_gradients_eq. reflexivity.
  - eexists. split.
    + rewrite compute_gradients_eq. reflexivity.
    + by vm_compute.
Qed.

Lemma cycle_law_dense_witness :
  same_presence (dense <$> [[qc 1]; [qc 2]])
  ∧ cycle_law (single_worker 2 true) (dense <$> [[qc 1]; [qc 2]]).
Proof.
  apply (cycle_law_dense 1 (single_worker 2 true) [[qc 1]; [qc 2]]).
  - reflexivity.
  - apply fresh_cycle_start.
  - apply length_preserving_id.
  - repeat constructor.
  - reflexivity.
Defined.

(** C2 fails as stated: with frequency 2, averaging on and a reduce that
    returns its values in sparse form, the value returned for slot 0 after
    the gradients 1 and 3 is the reduced value itself, not the reduced
    value divided by 2. *)
Lemma averaging_law_fails_on_sparse_reduced_value :
  let h := fresh 2 sparse_reduce false true in
  let gss := [[qc 1]; [qc 3]] in
  cycle_start 1 h ∧ length_preserving (_allreduce_grads h) ∧
  ∃ hf out,
    run (dense <$> gss) h !! 1 = Some (hf, Return out) ∧
    ¬ averaging_law h (slot_sums gss) out.
Proof.
  cbv zeta. split; [apply fresh_cycle_start|].
  split; [apply length_preserving_sparse_reduce|].
  destruct (cycle_run 1 (fresh 2 sparse_reduce false true) [[qc 1]; [qc 3]])
    as [_ Hlast].
  { apply fresh_cycle_start. }
  { apply length_preserving_sparse_reduce. }
  { done. }
  { by repeat constructor. }
  { done. }
  eexists _, _. split; [apply Hlast|]. intros Hlaw.
  destruct (Hlaw 0 (IndexedSlices (qc 1 + qc 3)%Qc [0%Z])) as [Hdiv _];
    [reflexivity|].
  specialize (Hdiv eq_refl eq_refl).
  unfold reduced, slot_sums, accumulate in Hdiv. cbn in Hdiv.
  apply (f_equal (λ o, match o with
                        | Some (IndexedSlices values _) => this values
                        | _ => 0%Q
                        end)) in Hdiv.
  vm_compute in Hdiv. discriminate.
Qed.

Lemma reduce_gets_sums_and_result_is_scaled_witness :
  ∃ hf out,
    run (dense <$> [[qc 1]; [qc 3]]) (single_worker 2 true) !! 1
      = Some (hf, Return out) ∧
    out = reduced (single_worker 2 true) (dense (slot_sums [[qc 1]; [qc 3]])) ∧
    length out = 1 ∧
    ∀ k r, id (dense (slot_sums [[qc 1]; [qc 3]])) !! k = Some r →
      out !! k = Some (scale_grad 2 r).
Proof.
  apply (reduce_gets_sums_and_result_is_scaled 1 (single_worker 2 true)
           [[qc 1]; [qc 3]]).
  - apply fresh_cycle_start.
  - apply length_preserving_id.
  - repeat constructor.
  - reflexivity.
  - discriminate.
Defined.

(** C5 fails as stated: with frequency 2, the first call on a gradient at
    position 0 and none at position 1 returns a list of length 1 for an
    input of length 2. *)
Lemma provisional_output_is_shorter_than_input :
  let grads := [Tensor (qc 1); NoneGrad] in
  ∃ h' out,
    compute_gradients grads (single_worker 2 true) = (h', Return out) ∧
    length grads = 2 ∧ length out = 1.
Proof.
  cbv zeta. eexists _, _. split; [|split; [done|]].
  - rewrite compute_gradients_eq. reflexivity.
  - reflexivity.
Qed.

Lemma output_length_witness :
  ∃ h' out,
    compute_gradients [Tensor (qc 1); NoneGrad] (single_worker 2 true)
      = (h', Return out) ∧
    length out = length (filter (λ g, is_not_none g)
                           [Tensor (qc 1); @NoneGrad Qc]).
Proof.
  eexists _, _. split.
  - rewrite compute_gradients_eq. reflexivity.
  - eapply (output_length (single_worker 2 true)
              [Tensor (qc 1); NoneGrad]).
    rewrite compute_gradients_eq. reflexivity.
Defined.

Lemma frequency_one_synchronizes_every_call_witness :
  let h := single_worker 1 true in
  (∀ grads h' out,
     compute_gradients grads h = (h', Return out) →
     sync_step h = true ∧ counter_is_zero h' = true) ∧
  ∃ hk, run (dense <$> [[qc 1]; [qc 2]]) h !! 1
          = Some (hk, Return (id (dense [qc 2])))
        ∧ counter_is_zero hk = true.
Proof.
  apply (frequency_one_synchronizes_every_call 1 (single_worker 1 true)
           [[qc 1]; [qc 2]] 1 [qc 2]).
  - reflexivity.
  - apply fresh_cycle_start.
  - apply length_preserving_id.
  - repeat constructor.
  - reflexivity.
Defined.

Lemma sparse_gradient_rejected_witness :
  let grads := [Tensor (qc 1); IndexedSlices (qc 2) [0%Z]] in
  (compute_gradients grads (single_worker 3 true)).2
    = Raise UnsupportedSparseGradient
  ∧ counter (compute_gradients grads (single_worker 3 true)).1
    = counter (single_worker 3 true).
Proof.
  apply (sparse_gradient_rejected (single_worker 3 true)
           [Tensor (qc 1); IndexedSlices (qc 2) [0%Z]] 1 (qc 2) [0%Z]);
    reflexivity.
Defined.

Lemma sparse_gradient_rejected_whatever_the_flag_witness :
  let h := fresh 3 id true true in
  let grads := [Tensor (qc 1); IndexedSlices (qc 2) [0%Z]] in
  (compute_gradients grads h).2 = Raise UnsupportedSparseGradient
  ∧ ∀ b grads',
      compute_gradients grads' (set_sparse_as_dense b h) =
        (set_sparse_as_dense b (compute_gradients grads' h).1,
         (compute_gradients grads' h).2).
Proof.
  apply (sparse_gradient_rejected_whatever_the_flag (fresh 3 id true true)
           [Tensor (qc 1); IndexedSlices (qc 2) [0%Z]] 1 (qc 2) [0%Z]);
    reflexivity.
Defined.

Lemma apply_gate_runs_one_branch_witness :
  ∃ a0 : pyarg (),
    [GradsAndVars ()] !! 0 = Some a0 ∧
    [true_fn] = [true_fn]
    ∧ Applied 7%Z
      = Applied (super_apply_gradients counting_optimizer a0
                   (<["experimental_aggregate_gradients" := PyBool false]> ∅)
                   7%Z).1
    ∧ 7%Z = (super_apply_gradients counting_optimizer a0
               (<["experimental_aggregate_gradients" := PyBool false]> ∅)
               7%Z).2.
Proof.
  apply (apply_gate_runs_one_branch false (single_worker 1 true)
           (compute_gradients (dense [qc 1]) (single_worker 1 true)).1
           (dense [qc 1])
           (dense [(qc 0 + qc 1)%Qc])
           (λ w, (999%Z, (w + 100)%Z)) counting_optimizer
           [GradsAndVars ()] ∅ 7%Z 7%Z (Applied 7%Z) [true_fn]).
  - cbn. lia.
  - rewrite compute_gradients_eq. reflexivity.
  - reflexivity.
Defined.

(** C7 fails as stated in the branch for TensorFlow 2.4 and later: after
    a synchronization step, the gate does not return what the closure
    handed in returns (999, in a world moved by 100); it returns what the
    parent's [apply_gradients] returns, and the closure has not run. *)
Lemma supplied_closure_is_not_run_from_2_4_on :
  let h := single_worker 1 true in
  let h' := (compute_gradients (dense [qc 1]) h).1 in
  let closure := λ w : Z, (999%Z, (w + 100)%Z) in
  sync_step h = true
  ∧ (∃ out, compute_gradients (dense [qc 1]) h = (h', Return out))
  ∧ apply_gradients false h' closure counting_optimizer
      [GradsAndVars ()] ∅ 7%Z
    = Return (Applied 7%Z, 7%Z, [true_fn])
  ∧ (Applied 7%Z, 7%Z) ≠ (Applied (closure 7%Z).1, (closure 7%Z).2).
Proof.
  cbv zeta. split_and!; [done| |done|done].
  eexists. rewrite compute_gradients_eq. reflexivity.
Qed.

(** * Further properties of the helper *)

Section LoopEffects.

Context {T : Type} `{TensorOps T}.
Implicit Types (h : helper T) (grads res : list (grad T)) (idx k : nat).

Lemma no_sparse_cons g grads :
  no_sparse (g :: grads) →
  (∀ values indices, g ≠ IndexedSlices values indices) ∧ no_sparse grads.
Proof.
  intros Hns. split.
  - intros values indices ->. by apply (Hns 0 values indices).
  - intros i values indices Hi. by apply (Hns (S i) values indices).
Qed.

(** The loop runs to its end exactly on inputs without sparse gradients. *)
Lemma for_enumerate_returns grads idx res h :
  no_sparse grads → ∃ h1 r, for_enumerate idx grads res h = (h1, Return r).
Proof.
  revert idx res h. induction grads as [|g grads IH]; intros idx res h Hns.
  - by eexists _, _.
  - apply no_sparse_cons in Hns as [Hg Hns]. rewrite for_enumerate_cons.
    destruct g.
    + rewrite loop_body_Tensor. cbn. by apply IH.
    + by destruct (Hg values indices).
    + rewrite loop_body_NoneGrad. by apply IH.
Qed.

Lemma for_enumerate_returns_no_sparse grads idx res h h1 r :
  for_enumerate idx grads res h = (h1, Return r) → no_sparse grads.
Proof.
  intros Hl i values indices Hi.
  pose proof (for_enumerate_sparse grads i values indices idx res h Hi) as Hs.
  by rewrite Hl in Hs.
Qed.

(** Positions outside the input keep their buffers. *)
Lemma for_enumerate_lookup_lt grads idx res h k :
  k < idx →
  shadow_var (for_enumerate idx grads res h).1 !! k = shadow_var h !! k.
Proof.
  revert idx res h. induction grads as [|g grads IH]; intros idx res h Hk;
    [done|].
  rewrite for_enumerate_cons. destruct g.
  - rewrite loop_body_Tensor. cbn. rewrite IH by lia. cbn.
    by rewrite lookup_insert_ne by lia.
  - by rewrite loop_body_IndexedSlices.
  - rewrite loop_body_NoneGrad. rewrite IH by lia.
    by destruct (shadow_var h !! idx).
Qed.

Lemma for_enumerate_lookup_ge grads idx res h k :
  idx + length grads ≤ k →
  shadow_var (for_enumerate idx grads res h).1 !! k = shadow_var h !! k.
Proof.
  revert idx res h. induction grads as [|g grads IH]; intros idx res h Hk;
    [done|].
  cbn in Hk. rewrite for_enumerate_cons. destruct g.
  - rewrite loop_body_Tensor. cbn. rewrite IH by lia. cbn.
    by rewrite lookup_insert_ne by lia.
  - by rewrite loop_body_IndexedSlices.
  - rewrite loop_body_NoneGrad. rewrite IH by lia.
    by destruct (shadow_var h !! idx).
Qed.

(** What the loop does to the buffer of a position up to which the input
    holds no sparse gradient. *)
Lemma for_enumerate_lookup grads idx res h j g :
  grads !! j = Some g →
  no_sparse (take (S j) grads) →
  shadow_var (for_enumerate idx grads res h).1 !! (idx + j) =
    match g with
    | Tensor t =>
      Some (tensor_add (default (zeros_like t) (shadow_var h !! (idx + j))) t)
    | _ => shadow_var h !! (idx + j)
    end.
Proof.
  revert idx res h j. induction grads as [|g0 grads IH];
    intros idx res h j Hj Hns; [by rewrite lookup_nil in Hj|].
  cbn [take] in Hns. apply no_sparse_cons in Hns as [Hg0 Hns].
  rewrite for_enumerate_cons. destruct j as [|j].
  - cbn in Hj. injection Hj as <-. rewrite Nat.add_0_r. destruct g0.
    + rewrite loop_body_Tensor. cbn. rewrite for_enumerate_lookup_lt by lia.
      cbn. by rewrite lookup_insert_eq.
    + by destruct (Hg0 values indices).
    + rewrite loop_body_NoneGrad. rewrite for_enumerate_lookup_lt by lia.
      by destruct (shadow_var h !! idx) eqn:E; cbn; rewrite E.
  - cbn in Hj. replace (idx + S j) with (S idx + j) by lia. destruct g0.
    + rewrite loop_body_Tensor. cbn -[Nat.add].
      rewrite (IH _ _ _ j) by done. cbn -[Nat.add].
      by rewrite lookup_insert_ne by lia.
    + by destruct (Hg0 values indices).
    + rewrite loop_body_NoneGrad. rewrite (IH _ _ _ j) by done.
      by destruct (shadow_var h !! idx).
Qed.

(** The count of absent gradients never goes down. *)
Lemma for_enumerate_num_none grads idx res h :
  num_none_grad_updates h
  ≤ num_none_grad_updates (for_enumerate idx grads res h).1.
Proof.
  revert idx res h. induction grads as [|g grads IH]; intros idx res h;
    [done|].
  rewrite for_enumerate_cons. destruct g.
  - rewrite loop_body_Tensor. cbn. etrans; [|apply IH]. done.
  - by rewrite loop_body_IndexedSlices.
  - rewrite loop_body_NoneGrad. etrans; [|apply IH].
    destruct (shadow_var h !! idx); cbn; lia.
Qed.

(** The loop never removes a buffer, and allocates one only where the
    input holds a dense tensor. *)
Lemma for_enumerate_keeps grads idx res h k :
  is_Some (shadow_var h !! k) →
  is_Some (shadow_var (for_enumerate idx grads res h).1 !! k).
Proof.
  revert idx res h. induction grads as [|g grads IH]; intros idx res h Hk;
    [done|].
  rewrite for_enumerate_cons. destruct g.
  - rewrite loop_body_Tensor. cbn. apply IH. cbn.
    destruct (decide (idx = k)) as [->|];
      [by rewrite lookup_insert_eq|by rewrite lookup_insert_ne].
  - by rewrite loop_body_IndexedSlices.
  - rewrite loop_body_NoneGrad. apply IH. by destruct (shadow_var h !! idx).
Qed.

Lemma for_enumerate_new grads idx res h k :
  is_Some (shadow_var (for_enumerate idx grads res h).1 !! k) →
  is_Some (shadow_var h !! k)
  ∨ idx ≤ k ∧ ∃ t, grads !! (k - idx) = Some (Tensor t).
Proof.
  revert idx res h. induction grads as [|g grads IH]; intros idx res h;
    [by left|].
  rewrite for_enumerate_cons. destruct g.
  - rewrite loop_body_Tensor. cbn. intros [Hk|(Hle & t' & Hk)]%IH.
    + cbn in Hk. destruct (decide (idx = k)) as [->|].
      * right. split; [done|]. rewrite Nat.sub_diag. by eexists.
      * left. by rewrite lookup_insert_ne in Hk.
    + right. split; [lia|]. exists t'.
      by replace (k - idx) with (S (k - S idx)) by lia.
  - rewrite loop_body_IndexedSlices. by left.
  - rewrite loop_body_NoneGrad. intros [Hk|(Hle & t' & Hk)]%IH.
    + left. by destruct (shadow_var h !! idx).
    + right. split; [lia|]. exists t'.
      by replace (k - idx) with (S (k - S idx)) by lia.
Qed.

(** After the loop, the call only maps over the buffers. *)
Lemma compute_gradients_is_Some grads h k :
  is_Some (shadow_var (compute_gradients grads h).1 !! k) ↔
  is_Some (shadow_var (for_enumerate 0 grads [] h).1 !! k).
Proof.
  rewrite compute_gradients_eq.
  destruct (for_enumerate 0 grads [] h) as [h1 [res|e]]; [|done].
  destruct (_ =? length grads); [|done]. cbv zeta.
  destruct (counter h1 + 1 =? aggregation_frequency h1)%Z; [|done].
  destruct (length _ =? size _); [|done].
  destruct (rebuild _ _ _) as [out|]; [|done].
  destruct (length out =? _); [|done].
  cbn. rewrite lookup_fmap. by rewrite fmap_is_Some.
Qed.

Lemma compute_gradients_num_none grads h :
  num_none_grad_updates (compute_gradients grads h).1
  = num_none_grad_updates (for_enumerate 0 grads [] h).1.
Proof.
  rewrite compute_gradients_eq.
  destruct (for_enumerate 0 grads [] h) as [h1 [res|e]]; [|done].
  destruct (_ =? length grads); [|done]. cbv zeta.
  destruct (counter h1 + 1 =? aggregation_frequency h1)%Z; [|done].
  destruct (length _ =? size _); [|done].
  destruct (rebuild _ _ _) as [out|]; [|done].
  by destruct (length out =? _).
Qed.

End LoopEffects.

Section Counting.

Context {T : Type} `{TensorOps T}.
Implicit Types (h : helper T) (grads res : list (grad T)) (m : gmap nat T).

Lemma filter_ext_Forall {A} (P Q : A → Prop)
    `{!∀ x, Decision (P x)} `{!∀ x, Decision (Q x)} (l : list A) :
  Forall (λ x, P x ↔ Q x) l → filter P l = filter Q l.
Proof.
  induction 1 as [|x l Hx _ IH]; [done|].
  rewrite !filter_cons, IH.
  destruct (decide (P x)), (decide (Q x)); try done; exfalso; tauto.
Qed.

Lemma filter_split_length {A} (P Q : A → Prop)
    `{!∀ x, Decision (P x)} `{!∀ x, Decision (Q x)} (l : list A) :
  (∀ x, P x ↔ ¬ Q x) →
  length (filter P l) + length (filter Q l) = length l.
Proof.
  intros HPQ. induction l as [|x l IH]; [done|].
  rewrite !filter_cons.
  destruct (decide (P x)) as [HP|HP], (decide (Q x)) as [HQ|HQ]; cbn;
    try lia.
  - by apply HPQ in HP.
  - destruct HP. by apply HPQ.
Qed.

(** The positions below [P] that have a buffer are no more than the
    buffers, and are all the buffers exactly when no buffer sits at
    position [P] or beyond. *)
Lemma buffered_positions m P :
  let l := filter (λ i, is_Some (m !! i)) (seq 0 P) in
  length l ≤ size m ∧
  (length l = size m ↔ ∀ k, is_Some (m !! k) → k < P).
Proof.
  intros l.
  assert (NoDup l) as Hnd by (apply NoDup_filter, NoDup_seq).
  assert (∀ k, k ∈ l ↔ is_Some (m !! k) ∧ k < P) as Hl.
  { intros k. unfold l. rewrite list_elem_of_filter, elem_of_seq.
    split; intros [? ?]; (split; [done|lia]). }
  assert (list_to_set l ⊆ dom m) as Hsub.
  { intros k. rewrite elem_of_list_to_set, Hl, elem_of_dom. tauto. }
  assert (size (list_to_set (C := gset nat) l) = length l) as Hsize
    by by apply size_list_to_set.
  pose proof (size_dom m) as Hdom. split.
  - rewrite <-Hsize, <-Hdom. by apply subseteq_size.
  - split.
    + intros Heq k Hk.
      assert (list_to_set l = dom m) as Hset.
      { apply set_subseteq_size_eq; [done|]. lia. }
      apply elem_of_dom in Hk. rewrite <-Hset, elem_of_list_to_set in Hk.
      by apply Hl in Hk as [_ ?].
    + intros Hlt. rewrite <-Hsize, <-Hdom. f_equal. apply set_eq. intros k.
      rewrite elem_of_list_to_set, Hl, elem_of_dom.
      split; [by intros [? _]|]. intros Hk. split; [done|by apply Hlt].
Qed.

(** Every position met without a buffer adds one to the sum checked at
    line 64: it gets a buffer, or it is counted as absent. *)
Lemma for_enumerate_balance grads idx res h h1 r :
  for_enumerate idx grads res h = (h1, Return r) →
  size (shadow_var h1) + num_none_grad_updates h1 =
    size (shadow_var h) + num_none_grad_updates h
    + length (filter (λ i, shadow_var h !! i = None)
                (seq idx (length grads))).
Proof.
  revert idx res h. induction grads as [|g grads IH]; intros idx res h.
  - intros [= <- _]. cbn. lia.
  - rewrite for_enumerate_cons. cbn [length seq]. rewrite filter_cons.
    assert (∀ v, filter (λ i, <[idx:=v]> (shadow_var h) !! i = None)
                   (seq (S idx) (length grads))
                 = filter (λ i, shadow_var h !! i = None)
                     (seq (S idx) (length grads))) as Hext.
    { intros v. apply filter_ext_Forall, Forall_forall.
      intros i Hi%elem_of_seq. by rewrite lookup_insert_ne by lia. }
    destruct g.
    + rewrite loop_body_Tensor. cbn. intros Hl%IH. rewrite Hl. cbn.
      rewrite Hext. destruct (shadow_var h !! idx) as [b|] eqn:E.
      * rewrite map_size_insert_Some by done.
        rewrite decide_False by done. lia.
      * rewrite map_size_insert_None by done.
        rewrite decide_True by done. cbn. lia.
    + by rewrite loop_body_IndexedSlices.
    + rewrite loop_body_NoneGrad. intros Hl%IH. rewrite Hl.
      destruct (shadow_var h !! idx) as [b|] eqn:E.
      * rewrite decide_False by done. lia.
      * rewrite decide_True by done. cbn. lia.
Qed.

(** The sum checked at line 64, from the helper as the call found it. *)
Lemma checked_sum grads h h1 r :
  for_enumerate 0 grads [] h = (h1, Return r) →
  size (shadow_var h1) + num_none_grad_updates h1 + 
    length (filter (λ i, is_Some (shadow_var h !! i)) (seq 0 (length grads)))
  = size (shadow_var h) + num_none_grad_updates h + length grads.
Proof.
  intros Hl%for_enumerate_balance. rewrite Hl.
  pose proof (filter_split_length
                (λ i, shadow_var h !! i = None)
                (λ i, is_Some (shadow_var h !! i))
                (seq 0 (length grads))) as Hsplit.
  rewrite length_seq in Hsplit. rewrite <-Hsplit at 3; [lia|].
  intros i. by rewrite eq_None_not_Some.
Qed.

End Counting.

Section InvariantCheck.

Context {T : Type} `{TensorOps T}.
Implicit Types (h : helper T) (grads res : list (grad T)).

Lemma compute_gradients_check grads h h1 res :
  for_enumerate 0 grads [] h = (h1, Return res) →
  (compute_gradients grads h).2 = Raise AccumulationInvariantViolated ↔
  size (shadow_var h1) + num_none_grad_updates h1 ≠ length grads.
Proof.
  intros Hloop. rewrite compute_gradients_eq, Hloop.
  destruct (Nat.eqb_spec (size (shadow_var h1) + num_none_grad_updates h1)
              (length grads)) as [Heq|Hne]; [|done].
  split; [|done]. cbv zeta. intros Hr. exfalso.
  destruct (counter h1 + 1 =? aggregation_frequency h1)%Z; [|done].
  destruct (length (reduced h1 res) =? size (shadow_var h1)); [|done].
  destruct (rebuild _ _ _) as [out|e] eqn:Hrb.
  - by destruct (length out =? _).
  - apply rebuild_raises in Hrb. by subst.
Qed.

(** The check of line 64 passes exactly when the helper, as the call
    found it, had counted no absent gradient and held no buffer at or
    beyond the length of the input. *)
Lemma check_passes_iff grads h h1 res :
  for_enumerate 0 grads [] h = (h1, Return res) →
  size (shadow_var h1) + num_none_grad_updates h1 = length grads ↔
  num_none_grad_updates h = 0
  ∧ ∀ k, is_Some (shadow_var h !! k) → k < length grads.
Proof.
  intros Hsum%checked_sum.
  destruct (buffered_positions (shadow_var h) (length grads)) as [Hle Heq].
  cbv zeta in *. rewrite <-Heq. lia.
Qed.

Lemma buffer_beyond (m : gmap nat T) P :
  ¬ (∀ k, is_Some (m !! k) → k < P) → ∃ k, P ≤ k ∧ is_Some (m !! k).
Proof.
  intros Hn.
  destruct (decide (set_Forall (λ k, k < P) (dom m))) as [Hall|Hex].
  - destruct Hn. intros k Hk%elem_of_dom. by apply Hall.
  - apply not_set_Forall_Exists in Hex as (k & Hk & Hge); [|apply _].
    exists k. apply elem_of_dom in Hk. cbn in Hge. split; [lia|done].
Qed.

(** X1.  On an input without sparse gradients, whether the call fails the
    invariant check is decided by the helper alone, as the call finds it,
    and by the length of the input: the check fails exactly when an
    absent gradient has been counted before, or a buffer exists at a
    position at or beyond the length of the input.  Which positions of
    the input are absent plays no part. *)
Theorem invariant_violation_is_decided_before_the_loop h grads :
  no_sparse grads →
  (compute_gradients grads h).2 = Raise AccumulationInvariantViolated ↔
  0 < num_none_grad_updates h
  ∨ ∃ k, length grads ≤ k ∧ is_Some (shadow_var h !! k).
Proof.
  intros Hns.
  destruct (for_enumerate_returns grads 0 [] h Hns) as (h1 & res & Hloop).
  rewrite (compute_gradients_check grads h h1 res Hloop).
  rewrite (check_passes_iff grads h h1 res Hloop). split.
  - intros Hn. destruct (num_none_grad_updates h) as [|n]; [|left; lia].
    right. apply buffer_beyond. intros Hall. by apply Hn.
  - intros [Hnone|(k & Hk & Hsome)] [Hz Hall]; [lia|].
    apply Hall in Hsome. lia.
Qed.

(** X2.  The count of absent gradients is never reset: once the helper
    has counted one, no later call returns.  Every call of every later
    run raises the sparse-gradient error (when its input holds a sparse
    gradient) or the invariant violation (when it holds none), and the
    count stays positive. *)
Theorem no_call_returns_once_an_absent_gradient_was_counted h calls :
  0 < num_none_grad_updates h →
  Forall2 (λ grads r,
             (no_sparse grads ∧ r.2 = Raise AccumulationInvariantViolated)
             ∨ (¬ no_sparse grads ∧ r.2 = Raise UnsupportedSparseGradient))
    calls (run calls h)
  ∧ 0 < num_none_grad_updates (state_after calls h).
Proof.
  revert h. induction calls as [|grads calls IH]; intros h Hn.
  - split; [constructor|done].
  - assert (0 < num_none_grad_updates (compute_gradients grads h).1) as Hn'.
    { rewrite compute_gradients_num_none.
      pose proof (for_enumerate_num_none grads 0 [] h). lia. }
    destruct (IH _ Hn') as [Hrun Hstate]. split; [|done].
    cbn [run]. constructor; [|done]. cbn.
    destruct (for_enumerate 0 grads [] h) as [h1 [res|e]] eqn:Hloop.
    + left. split; [by eapply for_enumerate_returns_no_sparse|].
      apply (compute_gradients_check grads h h1 res Hloop).
      rewrite (check_passes_iff grads h h1 res Hloop). lia.
    + right. split.
      * intros Hns.
        destruct (for_enumerate_returns grads 0 [] h Hns) as (? & ? & Hr).
        congruence.
      * apply for_enumerate_raises in Hloop as He. subst e.
        by rewrite compute_gradients_eq, Hloop.
Qed.

(** X3.  Over any run, whatever the outcomes of its calls, a buffer that
    exists is never removed, and a position gets a buffer only if some
    call of the run carried a dense tensor at that position: a position
    whose gradient is always [None] never gets one. *)
Theorem buffers_are_kept_and_come_from_tensors h calls k :
  (is_Some (shadow_var h !! k) →
   is_Some (shadow_var (state_after calls h) !! k))
  ∧ (is_Some (shadow_var (state_after calls h) !! k) →
     is_Some (shadow_var h !! k)
     ∨ ∃ grads t, grads ∈ calls ∧ grads !! k = Some (Tensor t)).
Proof.
  revert h. induction calls as [|grads calls IH]; intros h.
  - split; [done|by left].
  - cbn. destruct (IH (compute_gradients grads h).1) as [Hkeep Hnew].
    split.
    + intros Hk. apply Hkeep, compute_gradients_is_Some.
      by apply for_enumerate_keeps.
    + intros [Hk|(grads' & t & Hin & Hg)]%Hnew.
      * apply compute_gradients_is_Some, for_enumerate_new in Hk
          as [Hk|(_ & t & Hg)]; [by left|].
        right. exists grads, t. rewrite Nat.sub_0_r in Hg.
        split; [apply list_elem_of_here|done].
      * right. exists grads', t. split; [by apply list_elem_of_further|done].
Qed.

End InvariantCheck.

Section Synchronization.

Context {T : Type} `{TensorOps T}.
Implicit Types (h : helper T) (grads res red : list (grad T)).

(** The loop leaves the configuration of the helper alone. *)
Lemma for_enumerate_config grads idx res h :
  let h1 := (for_enumerate idx grads res h).1 in
  _allreduce_grads h1 = _allreduce_grads h
  ∧ aggregation_frequency h1 = aggregation_frequency h
  ∧ average_aggregated_gradients h1 = average_aggregated_gradients h
  ∧ counter h1 = counter h.
Proof.
  revert idx res h. induction grads as [|g grads IH]; intros idx res h; [done|].
  cbv zeta. rewrite for_enumerate_cons. destruct g.
  - rewrite loop_body_Tensor. cbn. exact (IH (S idx) _ (set_shadow_var _ h)).
  - by rewrite loop_body_IndexedSlices.
  - rewrite loop_body_NoneGrad. destruct (shadow_var h !! idx).
    + exact (IH (S idx) res h).
    + exact (IH (S idx) res (set_num_none_grad_updates S h)).
Qed.

Lemma for_enumerate_reduced grads idx res h red :
  reduced (for_enumerate idx grads res h).1 red = reduced h red.
Proof.
  destruct (for_enumerate_config grads idx res h) as (Ha & Hf & Hv & _).
  unfold reduced. by rewrite Ha, Hf, Hv.
Qed.

Lemma length_reduced h red :
  length_preserving (_allreduce_grads h) →
  length (reduced h red) = length red.
Proof.
  intros Hlp. unfold reduced.
  destruct (1 <? _)%Z; by rewrite ?length_fmap, Hlp.
Qed.

(** What the comprehension of lines 70-73 yields when it yields. *)
Lemma rebuild_lookup (m : gmap nat T) red idxs out j idx :
  rebuild m red idxs = Return out →
  idxs !! j = Some idx →
  (is_Some (m !! idx) → out !! j = red !! idx ∧ idx < length red)
  ∧ (m !! idx = None → out !! j = Some NoneGrad).
Proof.
  revert out j. induction idxs as [|i idxs IH]; intros out j Hr Hj;
    [by rewrite lookup_nil in Hj|].
  cbn in Hr. destruct j as [|j]; cbn in Hj.
  - injection Hj as ->.
    destruct (m !! idx) as [v|] eqn:Em.
    + destruct (red !! idx) as [g|] eqn:Er; [|done].
      destruct (rebuild m red idxs); [|done]. injection Hr as <-.
      split; [|done]. intros _. split; [done|].
      by apply lookup_lt_Some in Er.
    + destruct (rebuild m red idxs); [|done]. injection Hr as <-.
      split; [by intros [? ?]|done].
  - destruct (m !! i).
    + destruct (red !! i); [|done].
      destruct (rebuild m red idxs) as [out'|]; [|done].
      injection Hr as <-. cbn. by apply IH.
    + destruct (rebuild m red idxs) as [out'|]; [|done].
      injection Hr as <-. cbn. by apply IH.
Qed.

Lemma filter_all {A} (P : A → Prop) `{!∀ x, Decision (P x)} (l : list A) :
  length (filter P l) = length l → Forall P l.
Proof.
  intros Hlen. apply Forall_forall. intros x Hx.
  destruct (decide (P x)) as [|Hn]; [done|].
  pose proof (length_filter_lt P l x Hx Hn). lia.
Qed.

Lemma filter_Forall_id {A} (P : A → Prop) `{!∀ x, Decision (P x)}
    (l : list A) :
  Forall P l → filter P l = l.
Proof.
  induction 1 as [|x l Hx _ IH]; [done|].
  by rewrite filter_cons_True, IH.
Qed.

(** X4.  A synchronization step that returns hands back the reduced and
    scaled values first and one [None] per counted absent gradient after
    them; and the buffers then sit at the positions [0 .. n-1] exactly.
    So the call returns only if no absent position of its input comes
    before a position with a buffer. *)
Theorem synchronized_output_is_reduced_values_then_nones h grads h' out :
  compute_gradients grads h = (h', Return out) →
  sync_step h = true →
  ∃ res,
    (for_enumerate 0 grads [] h).2 = Return res
    ∧ out = reduced h res ++ replicate (num_none_grad_updates h') NoneGrad
    ∧ length (reduced h res) = size (shadow_var h')
    ∧ ∀ k, is_Some (shadow_var h' !! k) ↔ k < size (shadow_var h').
Proof.
  rewrite compute_gradients_eq. unfold sync_step.
  pose proof (for_enumerate_config grads 0 [] h) as (_ & Hf & _ & Hc).
  pose proof (for_enumerate_reduced grads 0 [] h) as Hred.
  destruct (for_enumerate 0 grads [] h) as [h1 [res|e]] eqn:Hloop; [|done].
  cbn in Hf, Hc, Hred. rewrite <-Hf, <-Hc.
  destruct (Nat.eqb_spec (size (shadow_var h1) + num_none_grad_updates h1)
              (length grads)) as [Hsum|]; [|done].
  cbv zeta. intros Hcall Hsync. rewrite Hsync in Hcall.
  destruct (Nat.eqb_spec (length (reduced h1 res)) (size (shadow_var h1)))
    as [Hn|]; [|done].
  destruct (rebuild _ _ _) as [out'|] eqn:Hrb; [|done].
  destruct (length out' =? _) eqn:Hlen; [|done].
  injection Hcall as <- <-. apply Nat.eqb_eq in Hlen.
  exists res. split; [done|]. cbn. rewrite map_size_fmap, <-Hred.
  set (m := shadow_var h1) in *. set (red := reduced h1 res) in *.
  set (n := size m) in *. set (c := num_none_grad_updates h1) in *.
  (* every buffer sits below the length of the input *)
  assert (∀ k, is_Some (m !! k) → k < n) as Hkeys.
  { intros k Hk.
    assert (k < length grads) as Hlt.
    { pose proof (for_enumerate_new grads 0 [] h k) as Hnew.
      rewrite Hloop in Hnew. destruct (Hnew Hk) as [Hold|(_ & t & Hg)].
      - by apply (check_passes_iff grads h h1 res Hloop).
      - rewrite Nat.sub_0_r in Hg. by apply lookup_lt_Some in Hg. }
    destruct (rebuild_lookup m red (seq 0 (length red + c)) out' k k Hrb)
      as [Hin _]; [apply lookup_seq; lia|].
    destruct (Hin Hk) as [_ ?]. lia. }
  (* and every position below the number of buffers has one *)
  assert (∀ k, k < n → is_Some (m !! k)) as Hfull.
  { destruct (buffered_positions m n) as [_ Heq]. cbv zeta in Heq.
    apply Heq in Hkeys. intros k Hk.
    assert (Forall (λ i, is_Some (m !! i)) (seq 0 n)) as Hall
      by (apply (filter_all (λ i, is_Some (m !! i))); by rewrite length_seq).
    rewrite Forall_forall in Hall. apply Hall, elem_of_seq. lia. }
  split_and!; [|done|].
  - apply list_eq. intros j.
    destruct (decide (j < length red + c)) as [Hj|Hj].
    + destruct (rebuild_lookup m red (seq 0 (length red + c)) out' j j Hrb)
        as [Hin Hout]; [apply lookup_seq; lia|].
      destruct (decide (j < n)) as [Hjn|Hjn].
      * destruct (Hin (Hfull j Hjn)) as [-> _].
        by rewrite lookup_app_l by lia.
      * rewrite Hout.
        -- rewrite lookup_app_r by lia. symmetry.
           apply lookup_replicate_2. lia.
        -- apply eq_None_not_Some. intros Hk%Hkeys. lia.
    + rewrite !lookup_ge_None_2; [done| |].
      * rewrite length_app, length_replicate. lia.
      * apply rebuild_length in Hrb. rewrite length_seq in Hrb. lia.
  - intros k. rewrite lookup_fmap, fmap_is_Some. split; [apply Hkeys|apply Hfull].
Qed.

(** X5.  A helper that holds a buffer for every one of the [P] positions
    and has counted no absent gradient, given an input of length [P] in
    which some position is [None], fails at the synchronization step: the
    reduced list is shorter than the number of buffers, the assertion of
    line 69 raises, and the counter stays at the frequency. *)
Theorem missing_gradient_fails_the_synchronization h grads i :
  no_sparse grads →
  num_none_grad_updates h = 0 →
  (∀ k, is_Some (shadow_var h !! k) ↔ k < length grads) →
  grads !! i = Some NoneGrad →
  sync_step h = true →
  length_preserving (_allreduce_grads h) →
  (compute_gradients grads h).2 = Raise (AssertionError ReducedLength)
  ∧ counter (compute_gradients grads h).1 = aggregation_frequency h.
Proof.
  intros Hns Hnone Hkeys Hi Hsync Hlp.
  destruct (for_enumerate_returns grads 0 [] h Hns) as (h1 & res & Hloop).
  pose proof (for_enumerate_config grads 0 [] h) as (_ & Hf & _ & Hc).
  pose proof (for_enumerate_reduced grads 0 [] h res) as Hred.
  rewrite Hloop in Hf, Hc, Hred. cbn in Hf, Hc, Hred.
  assert (size (shadow_var h1) + num_none_grad_updates h1 = length grads)
    as Hsum.
  { apply (check_passes_iff grads h h1 res Hloop). split; [done|].
    intros k. apply Hkeys. }
  (* the loop allocated nothing *)
  assert (size (shadow_var h1) = length grads) as Hsize.
  { assert (dom (shadow_var h1) = dom (shadow_var h)) as Hdom.
    { apply set_eq. intros k. rewrite !elem_of_dom. split.
      - intros Hk. pose proof (for_enumerate_new grads 0 [] h k) as Hnew.
        rewrite Hloop in Hnew. destruct (Hnew Hk) as [|(_ & t & Hg)]; [done|].
        rewrite Nat.sub_0_r in Hg. apply Hkeys. by apply lookup_lt_Some in Hg.
      - intros Hk. pose proof (for_enumerate_keeps grads 0 [] h k Hk) as Hkeep.
        by rewrite Hloop in Hkeep. }
    rewrite <-(size_dom (shadow_var h1)), Hdom, size_dom.
    destruct (buffered_positions (shadow_var h) (length grads)) as [_ Heq].
    cbv zeta in Heq. rewrite <-(proj2 Heq) by (intros k; apply Hkeys).
    rewrite (filter_Forall_id (λ i, is_Some (shadow_var h !! i)));
      [by rewrite length_seq|].
    apply Forall_forall. intros k Hk%elem_of_seq. apply Hkeys. lia. }
  apply for_enumerate_length in Hloop as Hres. cbn in Hres.
  assert (length res < length grads) as Hshort.
  { rewrite Hres. apply (length_filter_lt _ _ NoneGrad); [|by cbn; auto].
    by apply list_elem_of_lookup_2 in Hi. }
  rewrite compute_gradients_eq, Hloop, Hsum, Nat.eqb_refl. cbv zeta.
  unfold sync_step in Hsync. rewrite Hc, Hf, Hsync, Hred.
  rewrite length_reduced by done.
  destruct (Nat.eqb_spec (length res) (size (shadow_var h1))) as [Heq|];
    [lia|].
  split; [done|]. cbn. apply Z.eqb_eq in Hsync. lia.
Qed.

End Synchronization.

Section Steps.

Context {T : Type} `{TensorOps T}.
Implicit Types (h : helper T) (grads res : list (grad T)).

Lemma omap_ext_Forall {A B} (f g : A → option B) (l : list A) :
  Forall (λ x, f x = g x) l → omap f l = omap g l.
Proof.
  induction 1 as [|x l Hx _ IH]; [done|]. cbn. by rewrite Hx, IH.
Qed.

Lemma no_sparse_take grads n : no_sparse grads → no_sparse (take n grads).
Proof.
  intros Hns i values indices Hi. apply lookup_take_Some in Hi as [Hi _].
  by apply (Hns i values indices).
Qed.

(** The loop appends, in order, the updated buffer of every position
    that carries a dense tensor. *)
Lemma for_enumerate_output grads idx res h h1 r :
  for_enumerate idx grads res h = (h1, Return r) →
  r = res ++ omap (λ i, match grads !! (i - idx) with
                        | Some (Tensor _) => Tensor <$> shadow_var h1 !! i
                        | _ => None
                        end) (seq idx (length grads)).
Proof.
  revert idx res h. induction grads as [|g grads IH]; intros idx res h.
  - intros [= _ <-]. cbn. by rewrite app_nil_r.
  - rewrite for_enumerate_cons. cbn [length seq].
    assert (∀ (f : nat → option (grad T)) x l,
              omap f (x :: l) = match f x with
                                | Some y => y :: omap f l
                                | None => omap f l
                                end) as Hcons by done.
    rewrite Hcons. cbv beta. rewrite Nat.sub_diag.
    change ((g :: grads) !! 0) with (Some g).
    assert (∀ b : nat → option (grad T),
              omap (λ i, match (g :: grads) !! (i - idx) with
                         | Some (Tensor _) => b i
                         | _ => None
                         end) (seq (S idx) (length grads))
              = omap (λ i, match grads !! (i - S idx) with
                           | Some (Tensor _) => b i
                           | _ => None
                           end) (seq (S idx) (length grads))) as Hext.
    { intros b. apply omap_ext_Forall, Forall_forall.
      intros i Hi%elem_of_seq.
      by replace (i - idx) with (S (i - S idx)) by lia. }
    rewrite (Hext (λ i, Tensor <$> shadow_var h1 !! i)).
    clear Hext Hcons. destruct g.
    + rewrite loop_body_Tensor. cbv zeta. intros Hl.
      pose proof (for_enumerate_lookup_lt grads (S idx)
                    (res ++ [Tensor (tensor_add
                       (default (zeros_like t) (shadow_var h !! idx)) t)])
                    (set_shadow_var
                       (<[idx := tensor_add
                            (default (zeros_like t) (shadow_var h !! idx)) t]>)
                       h) idx) as Hidx.
      rewrite Hl in Hidx. cbn in Hidx.
      rewrite lookup_insert_eq in Hidx by lia.
      apply IH in Hl. rewrite Hidx by lia. cbn [fmap option_fmap option_map].
      rewrite Hl at 1. by rewrite <-app_assoc.
    + by rewrite loop_body_IndexedSlices.
    + rewrite loop_body_NoneGrad. by intros Hl%IH.
Qed.

(** X6.  What a call that returns without synchronizing has done: the
    counter went up by one; at every position with a dense tensor the
    tensor was added to the buffer (to a buffer of zeros when the position
    had none); every other buffer is as before; and the value returned is
    the list of the updated buffers of the positions with a dense tensor,
    in order. *)
Theorem accumulation_step h grads h' out :
  compute_gradients grads h = (h', Return out) →
  sync_step h = false →
  counter h' = (counter h + 1)%Z
  ∧ (∀ k g, grads !! k = Some g →
       shadow_var h' !! k =
         match g with
         | Tensor t =>
           Some (tensor_add (default (zeros_like t) (shadow_var h !! k)) t)
         | _ => shadow_var h !! k
         end)
  ∧ (∀ k, length grads ≤ k → shadow_var h' !! k = shadow_var h !! k)
  ∧ out = omap (λ k, match grads !! k with
                     | Some (Tensor _) => Tensor <$> shadow_var h' !! k
                     | _ => None
                     end) (seq 0 (length grads)).
Proof.
  intros Hcall Hsync.
  pose proof (compute_gradients_counter h h' grads out Hcall) as Hc.
  rewrite Hsync in Hc. revert Hcall. rewrite compute_gradients_eq.
  pose proof (for_enumerate_config grads 0 [] h) as (_ & Hf & _ & Hc1).
  destruct (for_enumerate 0 grads [] h) as [h1 [res|e]] eqn:Hloop; [|done].
  cbn in Hf, Hc1. destruct (_ =? length grads); [|done]. cbv zeta.
  unfold sync_step in Hsync. rewrite Hc1, Hf, Hsync. intros [= <- <-].
  pose proof (for_enumerate_returns_no_sparse _ _ _ _ _ _ Hloop) as Hns.
  split_and!; [done| | |].
  - intros k g Hk.
    pose proof (for_enumerate_lookup grads 0 [] h k g Hk
                  (no_sparse_take _ _ Hns)) as Hl.
    by rewrite Hloop in Hl.
  - intros k Hk. pose proof (for_enumerate_lookup_ge grads 0 [] h k Hk) as Hl.
    by rewrite Hloop in Hl.
  - apply for_enumerate_output in Hloop. rewrite Hloop. cbn.
    apply omap_ext_Forall, Forall_forall. intros i _.
    by rewrite Nat.sub_0_r.
Qed.

(** X7.  A call that fails on a sparse gradient is not undone: the dense
    tensors at the positions before the first sparse one have been added
    to their buffers when the exception leaves the call, while the
    counter has not moved. *)
Theorem sparse_failure_keeps_earlier_additions h grads i values indices k t :
  grads !! i = Some (IndexedSlices values indices) →
  no_sparse (take i grads) →
  k < i →
  grads !! k = Some (Tensor t) →
  (compute_gradients grads h).2 = Raise UnsupportedSparseGradient
  ∧ counter (compute_gradients grads h).1 = counter h
  ∧ shadow_var (compute_gradients grads h).1 !! k
    = Some (tensor_add (default (zeros_like t) (shadow_var h !! k)) t).
Proof.
  intros Hi Hns Hk Ht.
  destruct (compute_gradients_sparse grads i values indices h Hi) as [Hr Hc].
  split_and!; [done|done|].
  assert ((compute_gradients grads h).1 = (for_enumerate 0 grads [] h).1)
    as ->.
  { pose proof (for_enumerate_sparse grads i values indices 0 [] h Hi) as Hs.
    rewrite compute_gradients_eq.
    by destruct (for_enumerate 0 grads [] h) as [h1 [res|e]]. }
  rewrite (for_enumerate_lookup grads 0 [] h k (Tensor t)); [done|done|].
  replace (take (S k) grads) with (take (S k) (take i grads))
    by (rewrite take_take; f_equal; lia).
  by apply no_sparse_take.
Qed.

Lemma compute_gradients_frequency grads h :
  aggregation_frequency (compute_gradients grads h).1
  = aggregation_frequency h.
Proof.
  rewrite compute_gradients_eq.
  pose proof (for_enumerate_config grads 0 [] h) as (_ & Hf & _).
  destruct (for_enumerate 0 grads [] h) as [h1 [res|e]]; [|done].
  cbn in Hf. rewrite <-Hf.
  destruct (_ =? length grads); [|done]. cbv zeta.
  destruct (counter h1 + 1 =? aggregation_frequency h1)%Z; [|done].
  destruct (length _ =? size _); [|done].
  destruct (rebuild _ _ _) as [out|]; [|done].
  by destruct (length out =? _).
Qed.

(** X8.  Over a run whose calls all return, from a helper whose counter
    lies in [0, f), the counter counts the calls modulo the frequency: so
    the apply gate, which tests the counter against [0], opens after
    every [f]-th call and after no other. *)
Theorem counter_counts_calls_modulo_frequency h calls :
  (0 ≤ counter h < aggregation_frequency h)%Z →
  all_returned (run calls h) →
  counter (state_after calls h)
  = ((counter h + Z.of_nat (length calls)) `mod` aggregation_frequency h)%Z.
Proof.
  revert h. induction calls as [|grads calls IH]; intros h Hc Hret.
  - cbn. rewrite Z.add_0_r, Z.mod_small; lia.
  - cbn [run] in Hret. apply Forall_cons in Hret as [[out Hout] Hret].
    cbn in Hout. cbn [state_after fold_left length].
    destruct (compute_gradients grads h) as [h' o] eqn:Hcall.
    cbn in Hout, Hret. subst o.
    pose proof (compute_gradients_counter h h' grads out Hcall) as Hc'.
    pose proof (compute_gradients_frequency grads h) as Hf.
    rewrite Hcall in Hf. cbn in Hf. cbn [fst].
    fold (state_after calls h'). unfold sync_step in Hc'.
    destruct (Z.eqb_spec (counter h + 1) (aggregation_frequency h))
      as [Heq|Hne].
    + rewrite IH by (rewrite ?Hf, ?Hc'; done || lia).
      rewrite Hf, Hc'.
      replace (counter h + Z.of_nat (S (length calls)))%Z
        with (Z.of_nat (length calls)
              + 1 * aggregation_frequency h)%Z by lia.
      by rewrite Z.mod_add by lia.
    + rewrite IH by (rewrite ?Hf, ?Hc'; done || lia).
      rewrite Hf, Hc'. f_equal. lia.
Qed.

(** X9.  A call that fails while synchronizing (with any error other than
    the sparse-gradient error and the invariant violation) leaves the
    counter equal to the frequency, and nothing resets it.  In every
    later run short enough for the 32-bit counter not to wrap (the
    frequency plus the number of calls stays below [2^31]), whatever the
    calls are and however they end, the counter stays at or above the
    frequency and below [2^31]: it is never [0], so the apply gate never
    opens. *)
Theorem failed_synchronization_blocks_the_gate h grads h' e calls :
  (0 < aggregation_frequency h)%Z →
  (aggregation_frequency h + Z.of_nat (length calls) < 2 ^ 31)%Z →
  compute_gradients grads h = (h', Raise e) →
  e ≠ UnsupportedSparseGradient →
  e ≠ AccumulationInvariantViolated →
  counter h' = aggregation_frequency h'
  ∧ Forall (λ r, counter_is_zero r.1 = false
                 ∧ (aggregation_frequency h' ≤ counter r.1 < 2 ^ 31)%Z)
      (run calls h').
Proof.
  intros Hpos Hbound Hcall Hsparse Hinv.
  assert (counter h' = aggregation_frequency h'
          ∧ aggregation_frequency h' = aggregation_frequency h) as [Hc Hf].
  { pose proof (compute_gradients_frequency grads h) as Hf.
    rewrite Hcall in Hf. cbn in Hf. split; [|done]. rewrite Hf.
    revert Hcall. rewrite compute_gradients_eq.
    pose proof (for_enumerate_config grads 0 [] h) as (_ & Hf1 & _ & Hc1).
    destruct (for_enumerate 0 grads [] h) as [h1 [res|e1]] eqn:Hloop.
    - cbn in Hf1, Hc1. destruct (_ =? length grads); [|congruence].
      cbv zeta.
      destruct (Z.eqb_spec (counter h1 + 1) (aggregation_frequency h1));
        [|done].
      destruct (length _ =? size _).
      + destruct (rebuild _ _ _) as [out|].
        * destruct (length out =? _); [done|]. intros [= <- _]. cbn. lia.
        * intros [= <- _]. cbn. lia.
      + intros [= <- _]. cbn. lia.
    - apply for_enumerate_raises in Hloop as ->. congruence. }
  split; [done|].
  assert (aggregation_frequency h' ≤ counter h')%Z as Hge by lia.
  assert (0 < aggregation_frequency h')%Z as Hpos' by lia.
  assert (counter h' + Z.of_nat (length calls) < 2 ^ 31)%Z as Hlt by lia.
  clear -Hge Hpos' Hlt. revert h' Hge Hpos' Hlt.
  induction calls as [|c calls IH]; intros h Hge Hpos Hlt; [constructor|].
  assert (aggregation_frequency h ≤ counter (compute_gradients c h).1
          ≤ counter h + 1)%Z as Hge'.
  { rewrite compute_gradients_eq.
    pose proof (for_enumerate_config c 0 [] h) as (_ & Hf1 & _ & Hc1).
    destruct (for_enumerate 0 c [] h) as [h1 [res|e1]]; cbn in *; [|lia].
    destruct (_ =? length c); [|cbn; lia]. cbv zeta.
    destruct (Z.eqb_spec (counter h1 + 1) (aggregation_frequency h1));
      [lia|]. cbn. lia. }
  cbn [run length] in *. constructor.
  - cbn. split; [unfold counter_is_zero; apply Z.eqb_neq; lia|lia].
  - cbn. pose proof (compute_gradients_frequency c h) as Hf.
    eapply Forall_impl.
    + apply IH; [rewrite Hf; lia|rewrite Hf; lia|lia].
    + intros r. cbn. rewrite Hf. done.
Qed.

End Steps.

Section FirstCall.

Context {T : Type} `{TensorOps T}.

(** X10.  [__init__] refuses a frequency that is not positive, and the
    helper it builds for a frequency above one takes any first input
    without sparse gradients, absent positions or not: the call returns,
    the counter is [1], and the buffers and the count of absent gradients
    together number the positions of the input. *)
Theorem fresh_helper_takes_any_first_input
    f allreduce sparse average (grads : list (grad T)) :
  (1 < f)%Z →
  no_sparse grads →
  (∀ f', (f' ≤ 0)%Z →
     init (T := T) f' allreduce sparse average
     = Raise (AssertionError FrequencyPositive))
  ∧ ∃ h h' out,
      init f allreduce sparse average = Return h
      ∧ compute_gradients grads h = (h', Return out)
      ∧ counter h' = 1%Z
      ∧ size (shadow_var h') + num_none_grad_updates h' = length grads.
Proof.
  intros Hf Hns. split.
  { intros f' Hf'. unfold init.
    by destruct (Z.ltb_spec 0 f'); [lia|]. }
  unfold init. destruct (Z.ltb_spec 0 f); [|lia].
  set (h := Helper allreduce f average ∅ 0 sparse 0).
  destruct (for_enumerate_returns grads 0 [] h Hns) as (h1 & res & Hloop).
  pose proof (for_enumerate_config grads 0 [] h) as (_ & Hf1 & _ & Hc1).
  rewrite Hloop in Hf1, Hc1. cbn in Hf1, Hc1.
  assert (size (shadow_var h1) + num_none_grad_updates h1 = length grads)
    as Hsum.
  { apply (check_passes_iff grads h h1 res Hloop). split; [done|].
    intros k [v Hv]. unfold h in Hv. cbn in Hv.
    by rewrite lookup_empty in Hv. }
  exists h, (set_counter (λ c, c + 1)%Z h1), res.
  split; [done|]. rewrite compute_gradients_eq, Hloop, Hsum, Nat.eqb_refl.
  cbv zeta. rewrite Hc1, Hf1.
  destruct (Z.eqb_spec (0 + 1) f); [lia|].
  split_and!; [done|by cbn; rewrite Hc1|done].
Qed.

End FirstCall.

Section GateArguments.

Context {T World R GV : Type}.
Implicit Types (h : helper T) (opt : optimizer World R GV)
  (args : list (pyarg GV)) (kwargs : gmap string (pyarg GV)) (w : World).

(** X11.  In the branch for TensorFlow 2.4 and later, [apply_gradients]
    overrides what its caller passes by keyword: a value given for
    [experimental_aggregate_gradients] never reaches the optimizer, and
    neither does a value given for [name] when a name is also passed by
    position. *)
Theorem apply_gradients_overrides_keywords
    h (c : World → R * World) opt args kwargs w v :
  apply_gradients false h c opt args
    (<["experimental_aggregate_gradients" := v]> kwargs) w
  = apply_gradients false h c opt args kwargs w
  ∧ (is_Some (args !! 1) →
     apply_gradients false h c opt args (<["name" := v]> kwargs) w
     = apply_gradients false h c opt args kwargs w).
Proof.
  unfold apply_gradients, aggregation_step.
  destruct (args !! 0) as [a0|]; [|done].
  destruct (_aggregate_gradients opt a0 w) as [updated w1]. split.
  - destruct (args !! 1) as [name|].
    + rewrite (insert_insert_ne _ "name"
                 "experimental_aggregate_gradients") by done.
      by rewrite insert_insert_eq.
    + by rewrite insert_insert_eq.
  - intros [name ->]. by rewrite insert_insert_eq.
Qed.

(** X12.  Each branch of [apply_gradients] leaves unused what the other
    one works with.  For TensorFlow 2.4 and later the closure handed in
    is never called, [_aggregate_gradients] runs on the first positional
    argument on every step, and a call without positional arguments
    raises [IndexError] on every step; before 2.4 the positional and
    keyword arguments play no part. *)
Theorem apply_gradients_branches_ignore
    h (c c' : World → R * World) opt args args' kwargs kwargs' w :
  apply_gradients false h c opt args kwargs w
  = apply_gradients false h c' opt args kwargs w
  ∧ apply_gradients false h c opt [] kwargs w = Raise IndexError
  ∧ (∀ a0 v w' called,
       args !! 0 = Some a0 →
       apply_gradients false h c opt args kwargs w
       = Return (v, w', called) →
       (counter_is_zero h = false →
        (v, w') = increment_optimizer_iteration opt
                    (_aggregate_gradients opt a0 w).2))
  ∧ apply_gradients true h c opt args kwargs w
    = apply_gradients true h c opt args' kwargs' w.
Proof.
  split_and!; [done|done| |done].
  intros a0 v w' called Ha0. unfold apply_gradients, counter_is_zero.
  rewrite Ha0. destruct (_aggregate_gradients opt a0 w) as [updated w1].
  intros Hr Hz. rewrite Hz in Hr. cbn in Hr. by simplify_eq.
Qed.

End GateArguments.

(** ** The further properties on rational tensors *)

Lemma invariant_violation_is_decided_before_the_loop_witness :
  (compute_gradients [Tensor (qc 3); Tensor (qc 4)] absent_counted).2
    = Raise AccumulationInvariantViolated ↔
  0 < num_none_grad_updates absent_counted
  ∨ ∃ k, 2 ≤ k ∧ is_Some (shadow_var absent_counted !! k).
Proof.
  apply (invariant_violation_is_decided_before_the_loop absent_counted
           [Tensor (qc 3); Tensor (qc 4)]).
  intros [|[|i]] values indices Hi; discriminate.
Defined.

Lemma no_call_returns_once_an_absent_gradient_was_counted_witness :
  Forall2 (λ grads r,
             (no_sparse grads ∧ r.2 = Raise AccumulationInvariantViolated)
             ∨ (¬ no_sparse grads ∧ r.2 = Raise UnsupportedSparseGradient))
    [[Tensor (qc 3); NoneGrad]; [IndexedSlices (qc 1) [0%Z]]]
    (run [[Tensor (qc 3); NoneGrad]; [IndexedSlices (qc 1) [0%Z]]]
       absent_counted)
  ∧ 0 < num_none_grad_updates
          (state_after [[Tensor (qc 3); NoneGrad];
                        [IndexedSlices (qc 1) [0%Z]]] absent_counted).
Proof.
  apply (no_call_returns_once_an_absent_gradient_was_counted absent_counted
           [[Tensor (qc 3); NoneGrad]; [IndexedSlices (qc 1) [0%Z]]]).
  cbn. lia.
Defined.

Lemma synchronized_output_is_reduced_values_then_nones_witness :
  let h := single_worker 1 true in
  let grads := [Tensor (qc 5); NoneGrad] in
  ∃ h' out,
    compute_gradients grads h = (h', Return out) ∧
    ∃ res,
      (for_enumerate 0 grads [] h).2 = Return res
      ∧ out = reduced h res ++ replicate (num_none_grad_updates h') NoneGrad
      ∧ length (reduced h res) = size (shadow_var h')
      ∧ ∀ k, is_Some (shadow_var h' !! k) ↔ k < size (shadow_var h').
Proof.
  cbv zeta. eexists _, _. split.
  - rewrite compute_gradients_eq. reflexivity.
  - eapply (synchronized_output_is_reduced_values_then_nones
              (single_worker 1 true) [Tensor (qc 5); NoneGrad]).
    + rewrite compute_gradients_eq. reflexivity.
    + reflexivity.
Defined.

Lemma missing_gradient_fails_the_synchronization_witness :
  (compute_gradients [Tensor (qc 3); NoneGrad] two_buffers).2
    = Raise (AssertionError ReducedLength)
  ∧ counter (compute_gradients [Tensor (qc 3); NoneGrad] two_buffers).1
    = aggregation_frequency two_buffers.
Proof.
  apply (missing_gradient_fails_the_synchronization two_buffers
           [Tensor (qc 3); NoneGrad] 1).
  - intros [|[|i]] values indices Hi; discriminate.
  - reflexivity.
  - intros k.
    change (shadow_var two_buffers)
      with (map_seq (M := gmap nat Qc) 0 [qc 1; qc 2]).
    rewrite lookup_map_seq_0. apply (lookup_lt_is_Some [qc 1; qc 2]).
  - reflexivity.
  - reflexivity.
  - intros grads. reflexivity.
Defined.

Lemma accumulation_step_witness :
  let h := single_worker 2 true in
  let grads := [Tensor (qc 1); NoneGrad] in
  ∃ h' out,
    compute_gradients grads h = (h', Return out) ∧
    counter h' = (counter h + 1)%Z
    ∧ (∀ k g, grads !! k = Some g →
         shadow_var h' !! k =
           match g with
           | Tensor t =>
             Some (tensor_add (default (zeros_like t) (shadow_var h !! k)) t)
           | _ => shadow_var h !! k
           end)
    ∧ (∀ k, length grads ≤ k → shadow_var h' !! k = shadow_var h !! k)
    ∧ out = omap (λ k, match grads !! k with
                       | Some (Tensor _) => Tensor <$> shadow_var h' !! k
                       | _ => None
                       end) (seq 0 (length grads)).
Proof.
  cbv zeta. eexists _, _. split.
  - rewrite compute_gradients_eq. reflexivity.
  - eapply (accumulation_step (single_worker 2 true)
              [Tensor (qc 1); NoneGrad]).
    + rewrite compute_gradients_eq. reflexivity.
    + reflexivity.
Defined.

Lemma sparse_failure_keeps_earlier_additions_witness :
  let h := single_worker 2 true in
  let grads := [Tensor (qc 1); IndexedSlices (qc 2) [0%Z]] in
  (compute_gradients grads h).2 = Raise UnsupportedSparseGradient
  ∧ counter (compute_gradients grads h).1 = counter h
  ∧ shadow_var (compute_gradients grads h).1 !! 0
    = Some (tensor_add (default (zeros_like (qc 1)) (shadow_var h !! 0))
              (qc 1)).
Proof.
  apply (sparse_failure_keeps_earlier_additions (single_worker 2 true)
           [Tensor (qc 1); IndexedSlices (qc 2) [0%Z]] 1 (qc 2) [0%Z] 0
           (qc 1)).
  - reflexivity.
  - intros [|i] values indices Hi; discriminate.
  - lia.
  - reflexivity.
Defined.

Lemma counter_counts_calls_modulo_frequency_witness :
  counter (state_after [dense [qc 1]] (single_worker 2 true))
  = ((counter (single_worker 2 true) + 1) `mod` 2)%Z.
Proof.
  apply (counter_counts_calls_modulo_frequency (single_worker 2 true)
           [dense [qc 1]]).
  - cbn. lia.
  - constructor; [|constructor]. eexists.
    rewrite compute_gradients_eq. reflexivity.
Defined.

Lemma failed_synchronization_blocks_the_gate_witness :
  ∃ h',
    compute_gradients (dense [qc 1]) dropping_worker
      = (h', Raise (AssertionError ReducedLength)) ∧
    counter h' = aggregation_frequency h'
    ∧ Forall (λ r, counter_is_zero r.1 = false
                   ∧ (aggregation_frequency h' ≤ counter r.1 < 2 ^ 31)%Z)
        (run [dense [qc 2]] h').
Proof.
  eexists. split.
  - rewrite compute_gradients_eq. reflexivity.
  - eapply (failed_synchronization_blocks_the_gate dropping_worker
              (dense [qc 1]) _ (AssertionError ReducedLength)
              [dense [qc 2]]).
    + reflexivity.
    + reflexivity.
    + rewrite compute_gradients_eq. reflexivity.
    + discriminate.
    + discriminate.
Defined.

Lemma fresh_helper_takes_any_first_input_witness :
  (∀ f', (f' ≤ 0)%Z →
     init (T := Qc) f' id false true
     = Raise (AssertionError FrequencyPositive))
  ∧ ∃ h h' out,
      init 2 id false true = Return h
      ∧ compute_gradients [NoneGrad; Tensor (qc 1)] h = (h', Return out)
      ∧ counter h' = 1%Z
      ∧ size (shadow_var h') + num_none_grad_updates h' = 2.
Proof.
  apply (fresh_helper_takes_any_first_input 2 id false true
           [NoneGrad; Tensor (qc 1)]).
  - reflexivity.
  - intros [|[|i]] values indices Hi; discriminate.
Defined.

Section SeveralCycles.

Context {T : Type} `{TensorOps T} `{!TensorLaws T}.
Implicit Types (h : helper T) (gss : list (list T)).

Lemma state_after_app calls1 calls2 h :
  state_after calls1 (state_after calls2 h)
  = state_after (calls2 ++ calls1) h.
Proof. unfold state_after. by rewrite fold_left_app. Qed.

Lemma state_after_last (calls : list (list (grad T))) h r :
  run calls h !! (length calls - 1) = Some r →
  calls ≠ [] →
  state_after calls h = r.1.
Proof.
  destruct calls as [|c calls _] using rev_ind; [done|]. intros Hr _.
  rewrite run_app, length_app in Hr. cbn in Hr.
  rewrite lookup_app_r in Hr by (rewrite length_run; lia).
  rewrite length_run in Hr.
  replace (length calls + 1 - 1 - length calls) with 0 in Hr by lia.
  cbn in Hr. injection Hr as <-. by rewrite <-state_after_app.
Qed.

(** X13.  Cycles do not leak into one another.  On a helper at the start
    of a cycle, over a run made of whole cycles of dense calls, the call
    that closes the [j]-th cycle returns the reduced and scaled sums of
    the gradients of that cycle alone, and leaves the helper at the start
    of a cycle again. *)
Theorem cycles_are_independent P h (cycles : list (list (list T))) j gss :
  (0 < aggregation_frequency h)%Z →
  cycle_start P h →
  length_preserving (_allreduce_grads h) →
  Forall (λ gss, Z.of_nat (length gss) = aggregation_frequency h
                 ∧ Forall (λ gs, length gs = P) gss) cycles →
  cycles !! j = Some gss →
  ∃ hj,
    run (dense <$> concat cycles) h
      !! (Z.to_nat (aggregation_frequency h) * S j - 1)
    = Some (hj, Return (reduced h (dense (slot_sums gss))))
    ∧ cycle_start P hj.
Proof using All.
  intros Hpos Hstart Hlp Hall. revert h j Hpos Hstart Hlp Hall.
  induction cycles as [|gss0 cycles IH]; intros h j Hpos Hstart Hlp Hall Hj;
    [by rewrite lookup_nil in Hj|].
  apply Forall_cons in Hall as [[Hlen0 Hall0] Hall].
  assert (gss0 ≠ []) as Hne by (intros ->; cbn in Hlen0; lia).
  destruct (cycle_run P h gss0) as [_ Hlast]; try done.
  set (h0 := set_counter (λ _, 0%Z)
               (set_shadow_var
                  (λ _, map_seq 0 (zeros_like <$> slot_sums gss0)) h))
    in *.
  assert (cycle_start P h0) as Hstart0.
  { destruct Hstart as (_ & Hn & _). split_and!; [done|done|].
    right. exists (slot_sums gss0). split; [|done].
    destruct gss0 as [|g rest]; [done|].
    apply Forall_cons in Hall0 as [Hg Hrest]. cbn.
    rewrite length_accumulate; [done|]. by rewrite Hg. }
  assert (length (run (dense <$> gss0) h) = Z.to_nat (aggregation_frequency h))
    as Hlenrun by (rewrite length_run, length_fmap; lia).
  cbn [concat]. rewrite fmap_app, run_app.
  destruct j as [|j]; cbn in Hj.
  - injection Hj as <-. exists h0. split; [|done].
    rewrite lookup_app_l by lia.
    rewrite Nat.mul_1_r. rewrite <-Hlen0, Nat2Z.id. apply Hlast.
  - assert (state_after (dense <$> gss0) h = h0) as ->.
    { apply (state_after_last (dense <$> gss0) h
               (h0, Return (reduced h (dense (slot_sums gss0))))).
      - rewrite length_fmap. exact Hlast.
      - by destruct gss0. }
    destruct (IH h0 j) as (hj & Hrun & Hsj); try done.
    exists hj. split; [|done].
    rewrite lookup_app_r by lia. rewrite Hlenrun.
    replace (Z.to_nat (aggregation_frequency h) * S (S j) - 1
             - Z.to_nat (aggregation_frequency h))
      with (Z.to_nat (aggregation_frequency h) * S j - 1) by lia.
    apply Hrun.
Qed.

End SeveralCycles.

Lemma cycles_are_independent_witness :
  ∃ hj,
    run (dense <$> concat [[[qc 1]; [qc 2]]; [[qc 3]; [qc 4]]])
      (single_worker 2 true) !! (Z.to_nat 2 * 2 - 1)
    = Some (hj, Return (reduced (single_worker 2 true)
                          (dense (slot_sums [[qc 3]; [qc 4]]))))
    ∧ cycle_start 1 hj.
Proof.
  apply (cycles_are_independent 1 (single_worker 2 true)
           [[[qc 1]; [qc 2]]; [[qc 3]; [qc 4]]] 1 [[qc 3]; [qc 4]]).
  - reflexivity.
  - apply fresh_cycle_start.
  - apply length_preserving_id.
  - repeat constructor.
  - reflexivity.
Defined.
